(** * ipc-shm-chdev: the per-channel message ring of the IPCF character device

    A shallow embedding of [src/ipcf/ipc-chardev.c]: the channel descriptor
    with its round pool, [get_next_free_buff], [get_next_pending_buff],
    [init_state_vars], the receive callback [data_chan_rx_cb] and the file
    operations [ipcf_read] and [ipcf_write].

    Machine integers are [Z] with the wrap-around of their C type written
    out; fixed-size C arrays are lists read and written by index. *)

From Stdlib Require Import ZArith Lia Sorted.
From stdpp Require Import base tactics option list numbers.

Local Open Scope Z_scope.

(** ** Machine integers *)

(** [uint32_t], [uint8_t] and [size_t] (64 bits on the arm64 target). *)
Definition u32 (z : Z) : Z := z mod 2 ^ 32.
Definition u8 (z : Z) : Z := z mod 2 ^ 8.
Definition usize (z : Z) : Z := z mod 2 ^ 64.

(** A [size_t] read back as [ssize_t]. *)
Definition to_ssize (z : Z) : Z :=
  if z <? 2 ^ 63 then z else z - 2 ^ 64.

(** [errno] values of the kernel. *)
Definition ENOMEM : Z := 12.
Definition EFAULT : Z := 14.

(** ** C arrays *)

(** [a[i]] and [a[i] = v] for an index the code has already bounded. *)
Definition rd {A} (d : A) (a : list A) (i : Z) : A :=
  default d (a !! Z.to_nat i).
Definition wr {A} (a : list A) (i : Z) (v : A) : list A :=
  <[Z.to_nat i := v]> a.

(** [memcpy(dst, src, n)]: the first [n] bytes of [dst] are replaced. *)
Definition memcpy (dst src : list Z) (n : Z) : list Z :=
  take (Z.to_nat n) src ++ drop (Z.to_nat n) dst.

(** Marker for IPCF instances / channels. *)
Definition IPC_INVALID : Z := 255.

(** ** The channel descriptor *)

(** [struct ipc_chan_descr_t], without the embedded [struct cdev]. *)
Record ipc_chan_descr_t := Build_chan {
  chan_pool : list (list Z);
  msg_size : list Z;
  msg_processed : list bool;
  free_buff_idx : Z;
  num_pending_msg : Z;
  instance_id : Z;
  channel_id : Z
}.

Definition set_chan_pool (ch : ipc_chan_descr_t) v :=
  Build_chan v (msg_size ch) (msg_processed ch) (free_buff_idx ch)
    (num_pending_msg ch) (instance_id ch) (channel_id ch).
Definition set_msg_size (ch : ipc_chan_descr_t) v :=
  Build_chan (chan_pool ch) v (msg_processed ch) (free_buff_idx ch)
    (num_pending_msg ch) (instance_id ch) (channel_id ch).
Definition set_msg_processed (ch : ipc_chan_descr_t) v :=
  Build_chan (chan_pool ch) (msg_size ch) v (free_buff_idx ch)
    (num_pending_msg ch) (instance_id ch) (channel_id ch).
Definition set_free_buff_idx (ch : ipc_chan_descr_t) v :=
  Build_chan (chan_pool ch) (msg_size ch) (msg_processed ch) v
    (num_pending_msg ch) (instance_id ch) (channel_id ch).
Definition set_num_pending_msg (ch : ipc_chan_descr_t) v :=
  Build_chan (chan_pool ch) (msg_size ch) (msg_processed ch) (free_buff_idx ch)
    v (instance_id ch) (channel_id ch).

(** [struct ipc_inst_descr_t]: the fields the read path consults. *)
Record ipc_inst_descr_t := Build_inst {
  chan_prepend_size : list bool;
  channel_count : Z
}.

(** ** Configuration *)

(** The constants of ipc-mem-cfg.h that size the ring, each of which the
    build may override, and the static table [inst_descr]. *)
Class Config := Build_config {
  IPC_QUEUE_SIZE : Z;
  IPCF_BUF_LEN : Z;
  inst_descr : list ipc_inst_descr_t
}.

(** ** The outside of the driver *)

(** Messages the driver passes to [printk]. *)
Inductive kmsg :=
| UnknownDevice (inst_id chan_id : Z)
| DataDoesNotFit (inst_id chan_id size : Z)
| ReleaseFailed (inst_id chan_id err : Z)
| CopySizeToUserFailed
| CopyPayloadToUserFailed
| AcquireFailed (inst_id chan_id length : Z)
| CopyFromUserFailed
| TxFailed (inst_id chan_id length err : Z).

(** What the driver does to the outside, in the order it does it. *)
Inductive event :=
| EvPrintk (m : kmsg)
| EvRelease (inst_id chan_id : Z) (buf : list Z)
| EvAcquire (inst_id chan_id size : Z)
| EvTx (inst_id chan_id : Z) (data : list Z) (size : Z).

(** The IPCF transport of ipc-shm.h, seen from the driver: what each call
    answers, given everything the driver did before.  [ipc_shm_acquire_buf]
    answers whether the returned pointer is non-NULL. *)
Class Transport := Build_transport {
  ipc_shm_release_buf : list event -> Z -> Z -> list Z -> Z;
  ipc_shm_acquire_buf : list event -> Z -> Z -> Z -> bool;
  ipc_shm_tx : list event -> Z -> Z -> list Z -> Z -> Z
}.

(** The global array [ipc_ch_descr] and the trace of outside effects. *)
Record world := Build_world {
  ipc_ch_descr : list ipc_chan_descr_t;
  klog : list event
}.

Definition M (A : Type) : Type := world -> A * world.

#[global] Instance M_ret : MRet M := fun A a w => (a, w).
#[global] Instance M_bind : MBind M :=
  fun A B k m w => let '(a, w) := m w in k a w.

Definition emit (e : event) : M unit :=
  fun w => (tt, Build_world (ipc_ch_descr w) (klog w ++ [e])).
Definition printk (m : kmsg) : M unit := emit (EvPrintk m).
Definition get_descrs : M (list ipc_chan_descr_t) :=
  fun w => (ipc_ch_descr w, w).
Definition set_descr (i : Z) (ch : ipc_chan_descr_t) : M unit :=
  fun w => (tt, Build_world (wr (ipc_ch_descr w) i ch) (klog w)).
Definition get_log : M (list event) := fun w => (klog w, w).

(** The calls of [ipc_shm_release_buf] in a trace. *)
Definition is_release (e : event) : bool :=
  match e with EvRelease _ _ _ => true | _ => false end.
Definition is_tx (e : event) : bool :=
  match e with EvTx _ _ _ _ => true | _ => false end.

(** ** The length prefix *)

(** [__swab32] of the kernel, which is [cpu_to_be32] on the little-endian
    arm64 cores the driver runs on. *)
Definition swab32 (x : Z) : Z :=
  Z.lor (Z.lor (Z.lor (Z.shiftl (Z.land x 0x000000ff) 24)
                      (Z.shiftl (Z.land x 0x0000ff00) 8))
               (Z.shiftr (Z.land x 0x00ff0000) 8))
        (Z.shiftr (Z.land x 0xff000000) 24).
Definition cpu_to_be32 (x : Z) : Z := swab32 x.

(** The four bytes of a [uint32_t] object in (little-endian) memory, as
    [copy_to_user(buffer, &v, sizeof(uint32_t))] reads them. *)
Definition bytes_of_u32 (v : Z) : list Z :=
  [ Z.land v 0xff; Z.land (Z.shiftr v 8) 0xff;
    Z.land (Z.shiftr v 16) 0xff; Z.land (Z.shiftr v 24) 0xff ].

(** Big-endian 32-bit encoding and decoding, as the specification words
    them. *)
Definition be32_encode (v : Z) : list Z :=
  [ (v / 2 ^ 24) mod 256; (v / 2 ^ 16) mod 256; (v / 2 ^ 8) mod 256;
    v mod 256 ].
Definition be32_decode (bs : list Z) : Z :=
  foldl (fun acc b => acc * 256 + b) 0 bs.

(** [copy_to_user(buffer + off, src, n)] into a user buffer of which [ucap]
    bytes are writable: whether it copies everything (the call then
    returns zero), and the bytes that reach the user memory, which are
    those that fit. *)
Definition copy_to_user_ok (ucap off n : Z) : bool := off + n <=? ucap.
Definition copy_to_user (ucap off : Z) (src : list Z) (n : Z) : list Z :=
  take (Z.to_nat (ucap - off)) (take (Z.to_nat n) src).

(** ** The driver *)

Section Driver.

Context `{cfg : Config} `{T : Transport}.

(** [get_next_free_buff]: the returned pointer [ch->chan_pool[buff_idx]] is
    represented by [buff_idx]. *)
Definition get_next_free_buff (ch : ipc_chan_descr_t) (size : Z)
  : ipc_chan_descr_t * Z :=
  let ch := if IPC_QUEUE_SIZE <=? free_buff_idx ch
            then set_free_buff_idx ch 0 else ch in
  let buff_idx := free_buff_idx ch in
  let ch := set_num_pending_msg ch
              (Z.min IPC_QUEUE_SIZE (u32 (num_pending_msg ch + 1))) in
  let ch := set_msg_size ch (wr (msg_size ch) buff_idx size) in
  let ch := set_msg_processed ch (wr (msg_processed ch) buff_idx false) in
  let ch := set_free_buff_idx ch (u32 (free_buff_idx ch + 1)) in
  (ch, buff_idx).

(** The index computed on entry of [get_next_pending_buff], in [uint32_t]
    arithmetic. *)
Definition pending_idx (ch : ipc_chan_descr_t) : Z :=
  u32 (u32 (IPC_QUEUE_SIZE + free_buff_idx ch) - num_pending_msg ch)
    mod IPC_QUEUE_SIZE.

(** [get_next_pending_buff]: [None] is the NULL pointer; otherwise the slot
    index of the returned buffer and the value stored through [size]. *)
Definition get_next_pending_buff (ch : ipc_chan_descr_t)
  : ipc_chan_descr_t * option (Z * Z) :=
  let buff_idx := pending_idx ch in
  if num_pending_msg ch =? 0 then (ch, None)
  else if negb (rd true (msg_processed ch) buff_idx) then
    let ch := set_msg_processed ch (wr (msg_processed ch) buff_idx true) in
    let size := rd 0 (msg_size ch) buff_idx in
    let ch := set_num_pending_msg ch (u32 (num_pending_msg ch - 1)) in
    (ch, Some (buff_idx, size))
  else (ch, None).

(** The inner loop and the two assignments of [init_state_vars] for one
    descriptor. *)
Definition init_chan (ch : ipc_chan_descr_t) : ipc_chan_descr_t :=
  let ch := set_num_pending_msg ch 0 in
  let ch := set_free_buff_idx ch 0 in
  foldl (fun ch idx =>
           let ch := set_msg_size ch (wr (msg_size ch) idx 0) in
           set_msg_processed ch (wr (msg_processed ch) idx true))
        ch (seqZ 0 IPC_QUEUE_SIZE).

(** [init_state_vars] over the global array [ipc_ch_descr]. *)
Definition init_state_vars (descrs : list ipc_chan_descr_t)
  : list ipc_chan_descr_t :=
  init_chan <$> descrs.

(** The store of a received message, lines 368-372 of [data_chan_rx_cb]:
    [get_next_free_buff] followed by the [memcpy] into the returned slot. *)
Definition push (ch : ipc_chan_descr_t) (buf : list Z) (size : Z)
  : ipc_chan_descr_t :=
  let '(ch, pbuff) := get_next_free_buff ch (u32 size) in
  set_chan_pool ch
    (wr (chan_pool ch) pbuff (memcpy (rd [] (chan_pool ch) pbuff) buf size)).

(** The bytes a reader copies out of a returned slot:
    [copy_to_user(buffer, pbuff, pbuff_size)]. *)
Definition slot_bytes (ch : ipc_chan_descr_t) (idx size : Z) : list Z :=
  take (Z.to_nat size) (rd [] (chan_pool ch) idx).

(** A pop together with the bytes it hands out. *)
Definition pop (ch : ipc_chan_descr_t)
  : ipc_chan_descr_t * option (list Z) :=
  let '(ch, r) := get_next_pending_buff ch in
  (ch, (fun '(idx, size) => slot_bytes ch idx size) <$> r).

(** ** Sequential executions of one descriptor *)

Inductive op :=
| Push (buf : list Z)
| Pop.

(** Runs [ops] in order and collects what each pop returned. *)
Fixpoint run (ops : list op) (ch : ipc_chan_descr_t)
  : ipc_chan_descr_t * list (option (list Z)) :=
  match ops with
  | [] => (ch, [])
  | Push buf :: ops => run ops (push ch buf (Z.of_nat (length buf)))
  | Pop :: ops =>
      let '(ch, r) := pop ch in
      let '(ch, rs) := run ops ch in
      (ch, r :: rs)
  end.

Definition pushes_of (ops : list op) : list (list Z) :=
  omap (fun o => match o with Push buf => Some buf | Pop => None end) ops.

(** [n] pops in a row. *)
Definition pops (n : nat) (ch : ipc_chan_descr_t) : list (option (list Z)) :=
  (run (replicate n Pop) ch).2.

(** The same executions with bookkeeping that the driver does not have:
    [t_writer] remembers, per slot, the number of the push that last wrote
    it, and [t_count] counts the pushes so far.  The descriptor itself is
    only ever changed by [push] and [get_next_pending_buff]. *)
Record traced := Build_traced {
  t_descr : ipc_chan_descr_t;
  t_writer : list Z;
  t_count : Z
}.

Definition tpush (t : traced) (buf : list Z) : traced :=
  let size := Z.of_nat (length buf) in
  let slot := (get_next_free_buff (t_descr t) (u32 size)).2 in
  Build_traced (push (t_descr t) buf size)
               (wr (t_writer t) slot (t_count t))
               (t_count t + 1).

Definition tpop (t : traced) : traced * option (Z * list Z) :=
  let '(ch, r) := get_next_pending_buff (t_descr t) in
  (Build_traced ch (t_writer t) (t_count t),
   (fun '(idx, size) => (rd 0 (t_writer t) idx, slot_bytes ch idx size)) <$> r).

(** Runs [ops] and collects, for every pop that returned a message, the
    number of the push that wrote the returned slot and the bytes. *)
Fixpoint trun (ops : list op) (t : traced) : traced * list (Z * list Z) :=
  match ops with
  | [] => (t, [])
  | Push buf :: ops => trun ops (tpush t buf)
  | Pop :: ops =>
      let '(t, r) := tpop t in
      let '(t, rs) := trun ops t in
      (t, match r with Some d => d :: rs | None => rs end)
  end.

(** A descriptor of the static array [ipc_ch_descr], as the C types shape
    it: [IPC_QUEUE_SIZE] slots of [IPCF_BUF_LEN] bytes and as many sizes and
    flags. *)
Record chan_shape (ch : ipc_chan_descr_t) : Prop := {
  shape_pool : length (chan_pool ch) = Z.to_nat IPC_QUEUE_SIZE;
  shape_slots : Forall (fun s => length s = Z.to_nat IPCF_BUF_LEN) (chan_pool ch);
  shape_size : length (msg_size ch) = Z.to_nat IPC_QUEUE_SIZE;
  shape_processed : length (msg_processed ch) = Z.to_nat IPC_QUEUE_SIZE
}.

(** The states a descriptor can be in: reset by [init_state_vars], then any
    sequence of stores of messages that fit a slot and of pops. *)
Definition fits (o : op) : Prop :=
  match o with
  | Push buf => Z.of_nat (length buf) <= IPCF_BUF_LEN
  | Pop => True
  end.

Definition reachable (ch : ipc_chan_descr_t) : Prop :=
  exists ch0 ops,
    chan_shape ch0 /\ Forall fits ops /\ ch = (run ops (init_chan ch0)).1.

(** ** The ring invariant *)

(** The slot holding the message stored [d] pushes ago. *)
Definition aged (ch : ipc_chan_descr_t) (d : Z) : Z :=
  (free_buff_idx ch - 1 - d) mod IPC_QUEUE_SIZE.

(** What slot [i] must hold when it carries push number [k] of [hist]. *)
Definition holds (ch : ipc_chan_descr_t) (writer : list Z)
    (hist : list (list Z)) (i k : Z) : Prop :=
  exists m slot,
    hist !! Z.to_nat k = Some m /\
    writer !! Z.to_nat i = Some k /\
    msg_size ch !! Z.to_nat i = Some (Z.of_nat (length m)) /\
    chan_pool ch !! Z.to_nat i = Some slot /\
    take (length m) slot = m.

(** The invariant of sequential executions: the [num_pending_msg] most
    recent pushes sit, unprocessed, in the slots behind [free_buff_idx];
    every other slot is marked processed. *)
Record ring_inv (ch : ipc_chan_descr_t) (writer : list Z)
    (hist : list (list Z)) : Prop := {
  inv_shape : chan_shape ch;
  inv_writer : length writer = Z.to_nat IPC_QUEUE_SIZE;
  inv_sizes : Forall (fun z => 0 <= z <= IPCF_BUF_LEN) (msg_size ch);
  inv_free : 0 <= free_buff_idx ch <= IPC_QUEUE_SIZE;
  inv_pending : 0 <= num_pending_msg ch <= IPC_QUEUE_SIZE;
  inv_hist : num_pending_msg ch <= Z.of_nat (length hist);
  inv_used : forall d, 0 <= d < num_pending_msg ch ->
    msg_processed ch !! Z.to_nat (aged ch d) = Some false /\
    holds ch writer hist (aged ch d) (Z.of_nat (length hist) - 1 - d);
  inv_unused : forall d, num_pending_msg ch <= d < IPC_QUEUE_SIZE ->
    msg_processed ch !! Z.to_nat (aged ch d) = Some true
}.

(** ** The pending range of the specification *)

(** The two ends of the range, [(next_free_index - pending_count) mod N]
    and [next_free_index mod N]. *)
Definition range_lo (ch : ipc_chan_descr_t) : Z :=
  (free_buff_idx ch - num_pending_msg ch) mod IPC_QUEUE_SIZE.
Definition range_hi (ch : ipc_chan_descr_t) : Z :=
  free_buff_idx ch mod IPC_QUEUE_SIZE.

(** Membership of [i] in the half-open range [[lo, hi)] walked upwards
    modulo the queue size; the range with equal ends is empty. *)
Definition in_half_open (lo hi i : Z) : bool :=
  if lo <? hi then (lo <=? i) && (i <? hi)
  else if lo =? hi then false
  else (lo <=? i) || (i <? hi).

(** The pending slots: the range above, and every slot once the ring is
    full (where both ends coincide). *)
Definition slot_pending (ch : ipc_chan_descr_t) (i : Z) : bool :=
  (num_pending_msg ch =? IPC_QUEUE_SIZE)
  || in_half_open (range_lo ch) (range_hi ch) i.

(** What the specification promises of one store into [ch], with the
    slot named by [free_buff_idx] read modulo the queue size. *)
Definition push_claim (ch : ipc_chan_descr_t) (buf : list Z) (size : Z)
  : Prop :=
  let s := free_buff_idx ch mod IPC_QUEUE_SIZE in
  let ch' := push ch buf size in
  (get_next_free_buff ch (u32 size)).2 = s /\
  slot_bytes ch' s size = take (Z.to_nat size) buf /\
  rd 0 (msg_size ch') s = size /\
  rd true (msg_processed ch') s = false /\
  free_buff_idx ch' mod IPC_QUEUE_SIZE
    = (free_buff_idx ch + 1) mod IPC_QUEUE_SIZE /\
  num_pending_msg ch' = Z.min IPC_QUEUE_SIZE (num_pending_msg ch + 1) /\
  (num_pending_msg ch = IPC_QUEUE_SIZE -> pending_idx ch = s).

(** ** The dispatcher and the file operations *)

Definition release_buf (inst_id chan_id : Z) (buf : list Z) : M Z :=
  log ← get_log;
  emit (EvRelease inst_id chan_id buf);;
  mret (ipc_shm_release_buf log inst_id chan_id buf).
Definition acquire_buf (inst_id chan_id size : Z) : M bool :=
  log ← get_log;
  emit (EvAcquire inst_id chan_id size);;
  mret (ipc_shm_acquire_buf log inst_id chan_id size).
Definition shm_tx (inst_id chan_id : Z) (data : list Z) (size : Z) : M Z :=
  log ← get_log;
  emit (EvTx inst_id chan_id data size);;
  mret (ipc_shm_tx log inst_id chan_id data size).

(** [get_device_idx]: the loop over [ipc_ch_descr], whose length is
    [IPC_NUM_CHANNELS]; [i] is the [uint8_t] loop counter. *)
Fixpoint get_device_idx_from (descrs : list ipc_chan_descr_t) (i : Z)
    (inst_id chan_id : Z) : Z :=
  match descrs with
  | [] => IPC_INVALID
  | d :: descrs =>
      if (instance_id d =? inst_id) && (channel_id d =? chan_id) then i
      else get_device_idx_from descrs (u8 (i + 1)) inst_id chan_id
  end.

Definition get_device_idx (descrs : list ipc_chan_descr_t)
    (inst_id chan_id : Z) : Z :=
  get_device_idx_from descrs 0 inst_id chan_id.

(** [data_chan_rx_cb]: [inst_id] is a [uint8_t], [chan_id] an [int] that
    [get_device_idx] receives as [uint8_t], [size] a [size_t].  The index
    [get_device_idx] returns is one it has just visited, so the [None]
    branch of the array access is never taken. *)
Definition data_chan_rx_cb (inst_id chan_id : Z) (buf : list Z) (size : Z)
  : M unit :=
  (if size <=? IPCF_BUF_LEN then
     descrs ← get_descrs;
     let dev_id := get_device_idx descrs inst_id (u8 chan_id) in
     if IPC_INVALID =? dev_id then
       printk (UnknownDevice inst_id chan_id)
     else
       match descrs !! Z.to_nat dev_id with
       | Some ch => set_descr dev_id (push ch buf size)
       | None => mret tt
       end
   else
     printk (DataDoesNotFit inst_id chan_id size));;
  err ← release_buf inst_id chan_id buf;
  if err =? 0 then mret tt
  else printk (ReleaseFailed inst_id chan_id err).

(** The framing flag [inst_descr[inst_id].chan_prepend_size[chan_id]]. *)
Definition prepend_size (inst_id chan_id : Z) : bool :=
  rd false (chan_prepend_size (rd (Build_inst [] 0) inst_descr inst_id))
     chan_id.

(** [ipcf_read] on the device of minor number [minor], whose descriptor
    [ipcf_open] stored in [pfile->private_data]; device nodes exist only
    for the minors of [ipc_ch_descr], so the first [None] branch is never
    taken.  [ucap] is the number of bytes the user memory at [buffer]
    accepts, [length] the size the caller announced.  The result is the
    value returned and the bytes placed in the user buffer; a copy that
    faults leaves there the bytes that fitted. *)
Definition ipcf_read (minor : Z) (ucap : Z) (length : Z)
  : M (Z * list Z) :=
  descrs ← get_descrs;
  match descrs !! Z.to_nat minor with
  | None => mret (0, [])
  | Some ch =>
      let ret := 0 in
      let inst_id := instance_id ch in
      let chan_id := channel_id ch in
      let '(ch, pbuff) := get_next_pending_buff ch in
      set_descr minor ch;;
      let pbuff_size := from_option snd 0 pbuff in
      let pbuff_size_be := cpu_to_be32 pbuff_size in
      match pbuff with
      | None => mret (to_ssize ret, [])
      | Some (idx, _) =>
          let pbuff := rd [] (chan_pool ch) idx in
          if prepend_size inst_id chan_id then
            let out := copy_to_user ucap 0 (bytes_of_u32 pbuff_size_be) 4 in
            if copy_to_user_ok ucap 0 4 then
              let ret := usize (ret + 4) in
              let out := out ++ copy_to_user ucap 4 pbuff pbuff_size in
              if copy_to_user_ok ucap 4 pbuff_size then
                mret (to_ssize (usize (ret + pbuff_size)), out)
              else
                printk CopyPayloadToUserFailed;;
                mret (to_ssize (usize (- EFAULT)), out)
            else
              printk CopySizeToUserFailed;;
              mret (- EFAULT, out)
          else
            let out := copy_to_user ucap 0 pbuff pbuff_size in
            if copy_to_user_ok ucap 0 pbuff_size then
              mret (to_ssize (usize (ret + pbuff_size)), out)
            else
              printk CopyPayloadToUserFailed;;
              mret (to_ssize (usize (- EFAULT)), out)
      end
  end.

(** [ipcf_write]: [ubuf] is the readable user memory at [buffer]. *)
Definition ipcf_write (minor : Z) (ubuf : list Z) (length : Z) : M Z :=
  descrs ← get_descrs;
  match descrs !! Z.to_nat minor with
  | None => mret 0
  | Some ch =>
      let inst_id := instance_id ch in
      let chan_id := channel_id ch in
      let length := if IPCF_BUF_LEN <? length then IPCF_BUF_LEN else length in
      buf ← acquire_buf inst_id chan_id length;
      if negb buf then
        printk (AcquireFailed inst_id chan_id length);;
        mret (- ENOMEM)
      else if negb (length <=? Z.of_nat (List.length ubuf)) then
        printk CopyFromUserFailed;;
        mret (- EFAULT)
      else
        err ← shm_tx inst_id chan_id (take (Z.to_nat length) ubuf) length;
        if negb (err =? 0) then
          printk (TxFailed inst_id chan_id length err);;
          mret err
        else mret (to_ssize length)
  end.


End Driver.

(** ** Configurations and sample inputs *)

(** The static table [inst_descr] of the driver: instance M7_0 with the
    channels echo (raw) and idps_statistics (length-prefixed). *)
Definition inst_descr_static : list ipc_inst_descr_t :=
  [ Build_inst [false; true] 2 ].

(** The configuration the driver is built with. *)
Definition default_cfg : Config := Build_config 64 128 inst_descr_static.

(** The capacity and slot size of the specification's worked scenarios. *)
Definition scenario_cfg : Config := Build_config 2 8 inst_descr_static.

(** A descriptor of the zero-initialised static array [ipc_ch_descr], with
    the identifiers [ipcf_module_init] assigns. *)
Definition zero_chan `{cfg : Config} (inst_id chan_id : Z)
  : ipc_chan_descr_t :=
  Build_chan
    (replicate (Z.to_nat IPC_QUEUE_SIZE) (replicate (Z.to_nat IPCF_BUF_LEN) 0))
    (replicate (Z.to_nat IPC_QUEUE_SIZE) 0)
    (replicate (Z.to_nat IPC_QUEUE_SIZE) false)
    0 0 inst_id chan_id.

(** The driver state when [ipcf_module_init] returns: the two channels of
    instance 0, reset by [init_state_vars]. *)
Definition boot_world `{cfg : Config} : world :=
  Build_world (init_state_vars [zero_chan 0 0; zero_chan 0 1]) [].

(** A transport that always succeeds, and one with no buffer left. *)
Definition good_transport : Transport :=
  Build_transport (fun _ _ _ _ => 0) (fun _ _ _ _ => true)
                  (fun _ _ _ _ _ => 0).
Definition exhausted_transport : Transport :=
  Build_transport (fun _ _ _ _ => 0) (fun _ _ _ _ => false)
                  (fun _ _ _ _ _ => 0).

(** The messages A, B, C of the overwrite scenario. *)
Definition msg_A : list Z := [65].
Definition msg_B : list Z := [66].
Definition msg_C : list Z := [67].

(** The scenario ring after A and B were stored: full. *)
Definition full_ring : ipc_chan_descr_t :=
  (run (cfg:=scenario_cfg) [Push msg_A; Push msg_B]
       (init_chan (cfg:=scenario_cfg) (zero_chan (cfg:=scenario_cfg) 0 0))).1.

(** The ring of the default configuration after 64 stores of A: full. *)
Definition full_default : ipc_chan_descr_t :=
  (run (cfg:=default_cfg) (Push <$> replicate 64 msg_A)
       (init_chan (cfg:=default_cfg) (zero_chan (cfg:=default_cfg) 0 0))).1.

(** The state after the three-byte message 1, 2, 3 arrived on channel
    [chan_id] of instance 0. *)
Definition world_after_rx `{cfg : Config} (chan_id : Z) : world :=
  (data_chan_rx_cb (T:=good_transport) 0 chan_id [1; 2; 3] 3 boot_world).2.

(** ** Executions that never overflow *)

Section Overflow.

Context `{cfg : Config}.

(** No store of [ops], run from [ch], finds the ring already full. *)
Fixpoint no_overflow (ops : list op) (ch : ipc_chan_descr_t) : bool :=
  match ops with
  | [] => true
  | Push buf :: ops =>
      (num_pending_msg ch <? IPC_QUEUE_SIZE)
      && no_overflow ops (push ch buf (Z.of_nat (length buf)))
  | Pop :: ops => no_overflow ops (pop ch).1
  end.

(** The messages a list of pop results carries. *)
Definition delivered (rs : list (option (list Z))) : list (list Z) :=
  omap id rs.

(** The messages still pending in a state with history [hist]. *)
Definition pending_msgs (ch : ipc_chan_descr_t) (hist : list (list Z))
  : list (list Z) :=
  drop (Z.to_nat (Z.of_nat (length hist) - num_pending_msg ch)) hist.

End Overflow.

(** ** Loading and unloading the module *)

(** Constants of ipc-mem-cfg.h and of the kernel used at load time. *)
Definition IPC_SHM_SIZE : Z := 0x80000.
Definition M7_0_CORE_ACTIVE : Z := 0x1.
Definition ENODEV : Z := 19.
Definition MINORMASK : Z := 2 ^ 20 - 1.

(** Messages [ipcf_module_init] passes to [printk]. *)
Inductive imsg :=
| NodeNotFound (inst_id : Z)
| InvalidRegProperty
| MapStatusFailed
| CoreNotStarted
| AllocRegionFailed
| ClassCreateFailed
| CdevAddFailed
| DeviceCreateFailed
| ShmInitFailed.

(** The kernel services the module calls when it is loaded and unloaded,
    in the order of the calls.  A device number [MKDEV(major, minor)] is
    the pair of its parts. *)
Inductive kcall :=
| KFindNode (inst_id : Z)
| KAddrToResource (inst_id : Z)
| KIoremap
| KIoread32
| KIounmap
| KAllocRegion (count : Z)
| KClassCreate
| KCdevInit (idx : Z)
| KCdevAdd (idx major minor : Z)
| KDeviceCreate (major minor inst_id ch_id : Z)
| KCdevDel (idx : Z)
| KDeviceDestroy (major minor : Z)
| KClassUnregister
| KClassDestroy
| KUnregisterRegion (major count : Z)
| KShmInit (addrs : list (Z * Z))
| KShmFree
| KPrintk (m : imsg).

(** What the kernel answers: whether the device-tree node is found, the
    error code and [res.start] of [of_address_to_resource], whether
    [ioremap] gave an error pointer, the word read from the M7_0 status
    register, the error code and major number of [alloc_chrdev_region],
    whether [class_create] gave a class, the result of [cdev_add] and of
    [device_create] for a minor, and the result of [ipc_shm_init]. *)
Class Kernel := Build_kernel {
  of_find_compatible_node : Z -> bool;
  of_address_to_resource : Z -> Z * Z;
  ioremap_is_err : bool;
  ioread32 : Z;
  alloc_chrdev_region : Z * Z;
  class_create : bool;
  cdev_add : Z -> Z;
  device_create_is_err : Z -> bool;
  ipc_shm_init : list (Z * Z) -> Z
}.

(** The module's global state: [ipc_ch_descr], the remote and local
    shared-memory address of each entry of [shm_cfg], [dev_major],
    whether [ipcfshm_class] is set, and the kernel calls made so far. *)
Record module_state := Build_module {
  mod_descr : list ipc_chan_descr_t;
  mod_shm_addr : list (Z * Z);
  mod_dev_major : Z;
  mod_class : bool;
  mod_calls : list kcall
}.

Definition kcall_do (c : kcall) (st : module_state) : module_state :=
  Build_module (mod_descr st) (mod_shm_addr st) (mod_dev_major st)
    (mod_class st) (mod_calls st ++ [c]).
Definition set_mod_descr (st : module_state) v : module_state :=
  Build_module v (mod_shm_addr st) (mod_dev_major st) (mod_class st)
    (mod_calls st).
Definition set_mod_shm_addr (st : module_state) v : module_state :=
  Build_module (mod_descr st) v (mod_dev_major st) (mod_class st)
    (mod_calls st).
Definition set_mod_dev_major (st : module_state) v : module_state :=
  Build_module (mod_descr st) (mod_shm_addr st) v (mod_class st)
    (mod_calls st).
Definition set_mod_class (st : module_state) v : module_state :=
  Build_module (mod_descr st) (mod_shm_addr st) (mod_dev_major st) v
    (mod_calls st).

Definition set_ids (ch : ipc_chan_descr_t) (inst_id chan_id : Z)
  : ipc_chan_descr_t :=
  Build_chan (chan_pool ch) (msg_size ch) (msg_processed ch)
    (free_buff_idx ch) (num_pending_msg ch) inst_id chan_id.

Section Lifecycle.

Context `{cfg : Config} `{K : Kernel}.

(** The first loop of [ipcf_module_init], over the instances [insts] still
    to visit: [inr] is an early [return] with its value. *)
Fixpoint find_nodes (insts : list Z) (st : module_state)
  : module_state + Z * module_state :=
  match insts with
  | [] => inl st
  | inst_id :: insts =>
      let st := kcall_do (KFindNode inst_id) st in
      if negb (of_find_compatible_node inst_id) then
        inr (- ENODEV, kcall_do (KPrintk (NodeNotFound inst_id)) st)
      else
        let st := kcall_do (KAddrToResource inst_id) st in
        let '(err, start) := of_address_to_resource inst_id in
        if err <? 0 then
          inr (err, kcall_do (KPrintk InvalidRegProperty) st)
        else
          let st := set_mod_shm_addr st
                      (wr (mod_shm_addr st) inst_id
                          (start, usize (start + IPC_SHM_SIZE))) in
          find_nodes insts st
  end.

(** The body of the inner device loop for channel [ch_id] of instance
    [inst_id] at index [cdev_idx]; [false] is the jump to [free_cdev]. *)
Definition create_device (inst_id ch_id cdev_idx : Z) (st : module_state)
  : bool * module_state :=
  let st := set_mod_descr st
              (wr (mod_descr st) cdev_idx
                  (set_ids (rd (Build_chan [] [] [] 0 0 0 0) (mod_descr st)
                               cdev_idx)
                           (u8 inst_id) (u8 ch_id))) in
  let st := kcall_do (KCdevInit cdev_idx) st in
  let st := kcall_do (KCdevAdd cdev_idx (mod_dev_major st) cdev_idx) st in
  if negb (cdev_add cdev_idx =? 0) then
    (false, kcall_do (KPrintk CdevAddFailed) st)
  else
    let st := kcall_do (KDeviceCreate (mod_dev_major st) cdev_idx
                                      inst_id ch_id) st in
    if device_create_is_err cdev_idx then
      let st := kcall_do (KCdevDel cdev_idx) st in
      (false, kcall_do (KPrintk DeviceCreateFailed) st)
    else (true, st).

(** The inner loop, over the channels [chs] still to visit. *)
Fixpoint chan_loop (inst_id : Z) (chs : list Z) (cdev_idx : Z)
    (st : module_state) : bool * Z * module_state :=
  match chs with
  | [] => (true, cdev_idx, st)
  | ch_id :: chs =>
      let '(ok, st) := create_device inst_id ch_id cdev_idx st in
      if ok then chan_loop inst_id chs (cdev_idx + 1) st
      else (false, cdev_idx, st)
  end.

(** The outer loop, over the instances still to visit, each with its
    entry of [inst_descr]. *)
Fixpoint inst_loop (insts : list (Z * ipc_inst_descr_t)) (cdev_idx : Z)
    (st : module_state) : bool * Z * module_state :=
  match insts with
  | [] => (true, cdev_idx, st)
  | (inst_id, d) :: insts =>
      let '(ok, cdev_idx, st) :=
        chan_loop inst_id (seqZ 0 (channel_count d)) cdev_idx st in
      if ok then inst_loop insts cdev_idx st
      else (false, cdev_idx, st)
  end.

(** The code at [free_chdev_region]. *)
Definition free_chdev_region (st : module_state) : Z * module_state :=
  (- EFAULT,
   kcall_do (KUnregisterRegion (mod_dev_major st) MINORMASK) st).

(** The code at [free_cdev], entered with [cdev_idx]. *)
Definition free_cdev (cdev_idx : Z) (st : module_state)
  : Z * module_state :=
  let st :=
    foldl (fun st i =>
             let st := kcall_do (KCdevDel i) st in
             kcall_do (KDeviceDestroy (mod_dev_major st) i) st)
          st (reverse (seqZ 0 cdev_idx)) in
  let st := kcall_do KClassUnregister st in
  let st := kcall_do KClassDestroy st in
  free_chdev_region st.

(** [ipcf_module_init], with the value it returns.  The assignment of
    [ipcfshm_uevent] to the class, which only sets the mode of the device
    nodes, leaves no trace here. *)
Definition ipcf_module_init (st : module_state) : Z * module_state :=
  match find_nodes (seqZ 0 (Z.of_nat (length inst_descr))) st with
  | inr r => r
  | inl st =>
      let st := kcall_do KIoremap st in
      if ioremap_is_err then
        (- EFAULT, kcall_do (KPrintk MapStatusFailed) st)
      else
        let st := kcall_do KIoread32 st in
        let M7_0_stat := ioread32 in
        let st := kcall_do KIounmap st in
        if negb (M7_0_CORE_ACTIVE =? Z.land M7_0_stat M7_0_CORE_ACTIVE) then
          (- EFAULT, kcall_do (KPrintk CoreNotStarted) st)
        else
          let st := kcall_do (KAllocRegion (Z.of_nat (length (mod_descr st))))
                             st in
          let '(err, major) := alloc_chrdev_region in
          if negb (err =? 0) then
            (err, kcall_do (KPrintk AllocRegionFailed) st)
          else
            let st := set_mod_dev_major st major in
            let st := kcall_do KClassCreate st in
            let st := set_mod_class st class_create in
            if negb class_create then
              free_chdev_region (kcall_do (KPrintk ClassCreateFailed) st)
            else
              let '(ok, cdev_idx, st) :=
                inst_loop (zip (seqZ 0 (Z.of_nat (length inst_descr)))
                               inst_descr) 0 st in
              if negb ok then free_cdev cdev_idx st
              else
                let st := set_mod_descr st (init_state_vars (mod_descr st)) in
                let st := kcall_do (KShmInit (mod_shm_addr st)) st in
                if negb (ipc_shm_init (mod_shm_addr st) =? 0) then
                  free_cdev cdev_idx
                    (kcall_do (KPrintk ShmInitFailed) st)
                else (0, st)
  end.

(** [ipcf_module_exit]: [IPC_NUM_CHANNELS] is the length of
    [ipc_ch_descr]. *)
Definition ipcf_module_exit (st : module_state) : module_state :=
  let st :=
    foldl (fun st i =>
             let st := kcall_do (KCdevDel i) st in
             kcall_do (KDeviceDestroy (mod_dev_major st) i) st)
          st (seqZ 0 (Z.of_nat (length (mod_descr st)))) in
  let st := kcall_do (KUnregisterRegion (mod_dev_major st) MINORMASK) st in
  let st := kcall_do KClassUnregister st in
  let st := kcall_do KClassDestroy st in
  kcall_do KShmFree st.

(** The (instance, channel) pairs of the configured channels in the order
    of their device indices, instances counted from [inst_id]. *)
Fixpoint flat_ids (inst_id : Z) (insts : list ipc_inst_descr_t)
  : list (Z * Z) :=
  match insts with
  | [] => []
  | d :: insts =>
      ((fun ch_id => (inst_id, ch_id)) <$> seqZ 0 (channel_count d))
      ++ flat_ids (inst_id + 1) insts
  end.

(** The character-device region as the module holds it: not at all; as
    [alloc_chrdev_region] gave it, under [major] for [count] minors; or
    still as allocated after an [unregister_chrdev_region] that named its
    major but [named] minors, another number than was allocated.  What
    the kernel does on such a call is outside the driver, so the state
    is kept apart from [NoRegion]. *)
Inductive region :=
| NoRegion
| Region (major count : Z)
| Unmatched (major count named : Z).

(** What the module holds from the kernel: the character-device region,
    the character devices added, each by the index of its descriptor, and
    the device nodes created, each by its minor under the major of the
    region.  The class is left out: what [class_unregister] followed by
    [class_destroy] does to it is decided inside the kernel. *)
Record resources := Build_resources {
  res_region : region;
  res_cdevs : list Z;
  res_devices : list Z
}.

Definition no_resources : resources := Build_resources NoRegion [] [].

Definition drop_elem (i : Z) (l : list Z) : list Z :=
  List.filter (fun x => negb (x =? i)) l.
Definition has_elem (i : Z) (l : list Z) : bool :=
  List.existsb (fun x => x =? i) l.

(** Whether [major] is the major of the region held. *)
Definition under_major (r : resources) (major : Z) : bool :=
  match res_region r with
  | Region m _ => m =? major
  | _ => false
  end.

(** The region allocated under [major] for [count] minors, after an
    [unregister_chrdev_region] that names [major] and [named] minors. *)
Definition after_unregister (major count named : Z) : region :=
  if count =? named then NoRegion else Unmatched major count named.

(** The effect of one kernel call on what the module holds; [None] when
    the call takes what is already held, gives back what is not held, or
    names a device number under another major than that of the region
    held.  A region, a character device or a device node is held from the
    call that obtains it successfully to the call that gives it back. *)
Definition track_call (r : resources) (c : kcall) : option resources :=
  match c with
  | KAllocRegion count =>
      match res_region r with
      | NoRegion =>
          Some (Build_resources
                  (if alloc_chrdev_region.1 =? 0
                   then Region alloc_chrdev_region.2 count else NoRegion)
                  (res_cdevs r) (res_devices r))
      | _ => None
      end
  | KUnregisterRegion major named =>
      match res_region r with
      | Region m count =>
          if m =? major
          then Some (Build_resources (after_unregister m count named)
                                     (res_cdevs r) (res_devices r))
          else None
      | _ => None
      end
  | KCdevAdd i major _ =>
      if negb (under_major r major) || has_elem i (res_cdevs r) then None
      else Some (Build_resources (res_region r)
                   (if cdev_add i =? 0 then res_cdevs r ++ [i]
                    else res_cdevs r)
                   (res_devices r))
  | KCdevDel i =>
      if has_elem i (res_cdevs r)
      then Some (Build_resources (res_region r)
                                 (drop_elem i (res_cdevs r)) (res_devices r))
      else None
  | KDeviceCreate major minor _ _ =>
      if negb (under_major r major) || has_elem minor (res_devices r)
      then None
      else Some (Build_resources (res_region r) (res_cdevs r)
                   (if device_create_is_err minor then res_devices r
                    else res_devices r ++ [minor]))
  | KDeviceDestroy major minor =>
      if under_major r major && has_elem minor (res_devices r)
      then Some (Build_resources (res_region r) (res_cdevs r)
                                 (drop_elem minor (res_devices r)))
      else None
  | _ => Some r
  end.

(** The calls by which the module registers something with the kernel or
    starts the transport. *)
Definition is_registration (c : kcall) : bool :=
  match c with
  | KAllocRegion _ | KClassCreate | KCdevInit _ | KCdevAdd _ _ _
  | KDeviceCreate _ _ _ _ | KShmInit _ => true
  | _ => false
  end.

(** The device nodes a sequence of calls asks for: minor, instance and
    channel of each [device_create]. *)
Definition created_nodes (cs : list kcall) : list (Z * (Z * Z)) :=
  omap (fun c => match c with
                 | KDeviceCreate _ minor inst_id ch_id =>
                     Some (minor, (inst_id, ch_id))
                 | _ => None
                 end) cs.

(** The resources held after a sequence of calls. *)
Fixpoint track (r : resources) (cs : list kcall) : option resources :=
  match cs with
  | [] => Some r
  | c :: cs =>
      match track_call r c with
      | Some r => track r cs
      | None => None
      end
  end.

(** The module holding the region allocated under [major] for [count]
    minors and the devices and nodes [0 .. n-1]. *)
Definition holding (major count n : Z) : resources :=
  Build_resources (Region major count) (seqZ 0 n) (seqZ 0 n).

(** The identity of a channel descriptor. *)
Definition chan_ids (d : ipc_chan_descr_t) : Z * Z :=
  (instance_id d, channel_id d).

(** The shared-memory addresses of instance [inst_id]: the remote one as
    the device tree gives it and the local one behind it. *)
Definition shm_layout (inst_id : Z) : Z * Z :=
  let start := (of_address_to_resource inst_id).2 in
  (start, usize (start + IPC_SHM_SIZE)).

(** [st'] is [st] after the further calls [new], with the length of
    [ipc_ch_descr] as it was. *)
Record continues (st st' : module_state) (new : list kcall) : Prop := {
  cont_calls : mod_calls st' = mod_calls st ++ new;
  cont_len : length (mod_descr st') = length (mod_descr st)
}.

End Lifecycle.

(** ** Further sample inputs: a transport, kernels and the module state *)

(** A transport that hands out buffers but refuses every transmission
    with the code -11. *)
Definition busy_transport : Transport :=
  Build_transport (fun _ _ _ _ => 0) (fun _ _ _ _ => true)
                  (fun _ _ _ _ _ => -11).

(** A kernel on which every service succeeds: the reserved memory of each
    instance starts at 0x34100000, the M7_0 status word has the active
    bit set and the region gets the major number 240. *)
Definition good_kernel : Kernel :=
  Build_kernel (fun _ => true) (fun _ => (0, 0x34100000)) false 1 (0, 240)
               true (fun _ => 0) (fun _ => false) (fun _ => 0).

(** The same kernel with the M7_0 core stopped. *)
Definition core_down_kernel : Kernel :=
  Build_kernel (fun _ => true) (fun _ => (0, 0x34100000)) false 0 (0, 240)
               true (fun _ => 0) (fun _ => false) (fun _ => 0).

(** The module when it is loaded: the zero-initialised static arrays and
    no kernel call made. *)
Definition boot_module `{cfg : Config} : module_state :=
  Build_module [zero_chan 0 0; zero_chan 0 0] [(0, 0)] 0 false [].

(** ** Proofs *)

Section Proofs.

Context `{cfg : Config} `{T : Transport}.

Hypothesis queue_size_pos : 0 < IPC_QUEUE_SIZE.
Hypothesis queue_size_u32 : 2 * IPC_QUEUE_SIZE < 2 ^ 32.
Hypothesis buf_len_u32 : 0 <= IPCF_BUF_LEN < 2 ^ 32.

Lemma u32_small z : 0 <= z < 2 ^ 32 -> u32 z = z.
Proof. intros. unfold u32. apply Z.mod_small. lia. Qed.

(** Reduction modulo the queue size of a value at most one lap away. *)
Lemma mod_window x :
  - IPC_QUEUE_SIZE <= x < 2 * IPC_QUEUE_SIZE ->
  x mod IPC_QUEUE_SIZE =
    if x <? 0 then x + IPC_QUEUE_SIZE
    else if x <? IPC_QUEUE_SIZE then x else x - IPC_QUEUE_SIZE.
Proof.
  intros Hx. symmetry.
  destruct (Z.ltb_spec x 0); [|destruct (Z.ltb_spec x IPC_QUEUE_SIZE)].
  - apply (Z.mod_unique_pos _ _ (-1)); lia.
  - apply (Z.mod_unique_pos _ _ 0); lia.
  - apply (Z.mod_unique_pos _ _ 1); lia.
Qed.

Ltac mod_cases :=
  repeat first
    [ match goal with
      | |- context [?x mod IPC_QUEUE_SIZE] =>
          rewrite (mod_window x) by lia
      | H : context [?x mod IPC_QUEUE_SIZE] |- _ =>
          rewrite (mod_window x) in H by lia
      end
    | case_match ];
  try lia.

Lemma aged_range ch d :
  0 <= free_buff_idx ch <= IPC_QUEUE_SIZE -> 0 <= d < IPC_QUEUE_SIZE ->
  0 <= aged ch d < IPC_QUEUE_SIZE.
Proof. intros. unfold aged. mod_cases. Qed.

Lemma aged_inj ch d1 d2 :
  0 <= free_buff_idx ch <= IPC_QUEUE_SIZE ->
  0 <= d1 < IPC_QUEUE_SIZE -> 0 <= d2 < IPC_QUEUE_SIZE ->
  aged ch d1 = aged ch d2 -> d1 = d2.
Proof. unfold aged. intros ? ? ? Heq. mod_cases. Qed.

(** Every slot index is the slot of exactly one age. *)
Lemma aged_surj ch i :
  0 <= free_buff_idx ch <= IPC_QUEUE_SIZE -> 0 <= i < IPC_QUEUE_SIZE ->
  aged ch ((free_buff_idx ch - 1 - i) mod IPC_QUEUE_SIZE) = i /\
  0 <= (free_buff_idx ch - 1 - i) mod IPC_QUEUE_SIZE < IPC_QUEUE_SIZE.
Proof.
  intros. unfold aged.
  rewrite (mod_window (free_buff_idx ch - 1 - i)) by lia.
  repeat case_match; (split; [mod_cases | lia]).
Qed.

(** [get_next_free_buff] on a descriptor whose counters are in range. *)
Lemma get_next_free_buff_eq ch size :
  0 <= free_buff_idx ch <= IPC_QUEUE_SIZE ->
  0 <= num_pending_msg ch <= IPC_QUEUE_SIZE ->
  let s := free_buff_idx ch mod IPC_QUEUE_SIZE in
  get_next_free_buff ch size =
    (Build_chan (chan_pool ch) (wr (msg_size ch) s size)
       (wr (msg_processed ch) s false) (s + 1)
       (Z.min IPC_QUEUE_SIZE (num_pending_msg ch + 1))
       (instance_id ch) (channel_id ch), s).
Proof.
  intros Hf Hp s. unfold get_next_free_buff.
  assert (Hs : s = if IPC_QUEUE_SIZE <=? free_buff_idx ch then 0
                   else free_buff_idx ch).
  { subst s. rewrite mod_window by lia.
    destruct (Z.leb_spec IPC_QUEUE_SIZE (free_buff_idx ch));
      repeat case_match; lia. }
  destruct (Z.leb_spec IPC_QUEUE_SIZE (free_buff_idx ch)); cbn;
    rewrite Hs, !u32_small by lia; reflexivity.
Qed.

Lemma push_eq ch buf size :
  0 <= free_buff_idx ch <= IPC_QUEUE_SIZE ->
  0 <= num_pending_msg ch <= IPC_QUEUE_SIZE ->
  0 <= size <= IPCF_BUF_LEN ->
  let s := free_buff_idx ch mod IPC_QUEUE_SIZE in
  push ch buf size =
    Build_chan (wr (chan_pool ch) s (memcpy (rd [] (chan_pool ch) s) buf size))
       (wr (msg_size ch) s size)
       (wr (msg_processed ch) s false) (s + 1)
       (Z.min IPC_QUEUE_SIZE (num_pending_msg ch + 1))
       (instance_id ch) (channel_id ch).
Proof.
  intros Hf Hp Hsz s. unfold push.
  rewrite get_next_free_buff_eq by lia. cbn.
  rewrite u32_small by lia. reflexivity.
Qed.

Lemma memcpy_take (dst src : list Z) :
  take (length src) (memcpy dst src (Z.of_nat (length src))) = src.
Proof.
  unfold memcpy. rewrite Nat2Z.id, (take_ge src) by lia.
  apply take_app_length.
Qed.

Lemma memcpy_length (dst src : list Z) n :
  (n <= length src)%nat -> (n <= length dst)%nat ->
  length (memcpy dst src (Z.of_nat n)) = length dst.
Proof.
  intros. unfold memcpy.
  rewrite Nat2Z.id, length_app, length_take, length_drop. lia.
Qed.

Lemma aged_pushed f d :
  0 <= f <= IPC_QUEUE_SIZE -> 1 <= d < IPC_QUEUE_SIZE ->
  (f mod IPC_QUEUE_SIZE + 1 - 1 - d) mod IPC_QUEUE_SIZE
    = (f - 1 - (d - 1)) mod IPC_QUEUE_SIZE /\
  (f mod IPC_QUEUE_SIZE + 1 - 1 - d) mod IPC_QUEUE_SIZE
    <> f mod IPC_QUEUE_SIZE /\
  0 <= (f - 1 - (d - 1)) mod IPC_QUEUE_SIZE.
Proof.
  intros Hf Hd. rewrite (mod_window f) by lia.
  repeat split; mod_cases.
Qed.

Lemma aged_newest f :
  0 <= f <= IPC_QUEUE_SIZE ->
  (f mod IPC_QUEUE_SIZE + 1 - 1 - 0) mod IPC_QUEUE_SIZE = f mod IPC_QUEUE_SIZE.
Proof. intros Hf. rewrite (mod_window f) by lia. mod_cases. Qed.

Lemma rd_lookup {A} (d : A) a i x : a !! Z.to_nat i = Some x -> rd d a i = x.
Proof. unfold rd. intros ->. reflexivity. Qed.

(** A store keeps the invariant and appends to the history. *)
Lemma push_inv ch writer hist buf :
  ring_inv ch writer hist ->
  Z.of_nat (length buf) <= IPCF_BUF_LEN ->
  ring_inv (push ch buf (Z.of_nat (length buf)))
    (wr writer (free_buff_idx ch mod IPC_QUEUE_SIZE) (Z.of_nat (length hist)))
    (hist ++ [buf]).
Proof.
  intros [[Hpl Hsl Hzl Hprl] Hwl Hsz Hf Hp Hh Hused Hunused] Hbuf.
  rewrite push_eq by lia.
  pose proof (aged_newest _ Hf) as Hnew.
  pose proof (fun d => aged_pushed _ d Hf) as Hold.
  set (s := free_buff_idx ch mod IPC_QUEUE_SIZE) in *.
  assert (Hs : 0 <= s < IPC_QUEUE_SIZE) by (subst s; mod_cases).
  assert (Hsn : (Z.to_nat s < Z.to_nat IPC_QUEUE_SIZE)%nat) by lia.
  split; cbn; unfold aged, wr; cbn.
  - split; cbn; rewrite ?length_insert; try done.
    destruct (lookup_lt_is_Some_2 (chan_pool ch) (Z.to_nat s)) as [slot Hslot];
      [lia|].
    apply Forall_insert; [done|].
    rewrite (rd_lookup _ _ _ _ Hslot).
    pose proof (Forall_lookup_1 _ _ _ _ Hsl Hslot) as Hlen. cbn in Hlen.
    rewrite memcpy_length; lia.
  - rewrite length_insert. done.
  - apply Forall_insert; [done | lia].
  - lia.
  - lia.
  - rewrite length_app. cbn. lia.
  - intros d Hd. destruct (decide (d = 0)) as [->|Hd0].
    + rewrite Hnew. split; [apply list_lookup_insert_eq; lia|].
      destruct (lookup_lt_is_Some_2 (chan_pool ch) (Z.to_nat s)) as [slot Hslot];
        [lia|].
      exists buf, (memcpy slot buf (Z.of_nat (length buf))). cbn.
      rewrite (rd_lookup _ _ _ _ Hslot).
      repeat split.
      * apply list_lookup_middle. rewrite length_app. cbn. lia.
      * rewrite list_lookup_insert_eq by lia. f_equal.
        rewrite length_app. cbn. lia.
      * apply list_lookup_insert_eq; lia.
      * apply list_lookup_insert_eq; lia.
      * apply memcpy_take.
    + destruct (Hold d) as (-> & Hne & Hge); [lia|].
      destruct (Hused (d - 1)) as [Hproc (m & slot & Hm & Hw & Hms & Hsl' & Htk)];
        [lia|]. unfold aged in *.
      assert (Hne' : Z.to_nat s <>
                Z.to_nat ((free_buff_idx ch - 1 - (d - 1)) mod IPC_QUEUE_SIZE))
        by lia.
      split; [rewrite list_lookup_insert_ne by done; exact Hproc|].
      exists m, slot. cbn. rewrite !list_lookup_insert_ne by done.
      repeat split; try done.
      * rewrite length_app. cbn. rewrite lookup_app_l.
        -- rewrite <- Hm. f_equal. lia.
        -- lia.
      * rewrite Hw. f_equal. rewrite length_app. cbn. lia.
  - intros d Hd.
    destruct (Hold d) as (-> & Hne & Hge); [lia|].
    rewrite list_lookup_insert_ne by lia.
    apply Hunused. lia.
Qed.

Lemma pending_idx_eq ch :
  0 <= free_buff_idx ch <= IPC_QUEUE_SIZE ->
  0 < num_pending_msg ch <= IPC_QUEUE_SIZE ->
  pending_idx ch = aged ch (num_pending_msg ch - 1).
Proof.
  intros Hf Hp. unfold pending_idx, aged.
  rewrite !u32_small by (rewrite ?u32_small; lia).
  mod_cases.
Qed.

(** A pop of a non-empty ring under the invariant returns the oldest pending
    message, which is push number [length hist - num_pending_msg]. *)
Lemma pop_inv ch writer hist :
  ring_inv ch writer hist ->
  0 < num_pending_msg ch ->
  exists ch' idx m,
    get_next_pending_buff ch = (ch', Some (idx, Z.of_nat (length m))) /\
    ring_inv ch' writer hist /\
    num_pending_msg ch' = num_pending_msg ch - 1 /\
    hist !! Z.to_nat (Z.of_nat (length hist) - num_pending_msg ch) = Some m /\
    rd 0 writer idx = Z.of_nat (length hist) - num_pending_msg ch /\
    slot_bytes ch' idx (Z.of_nat (length m)) = m.
Proof.
  intros [[Hpl Hsl Hzl Hprl] Hwl Hsz Hf Hp Hh Hused Hunused] Hpos.
  destruct (Hused (num_pending_msg ch - 1))
    as [Hproc (m & slot & Hm & Hw & Hms & Hslot & Htk)]; [lia|].
  unfold get_next_pending_buff.
  rewrite pending_idx_eq by lia.
  set (idx := aged ch (num_pending_msg ch - 1)) in *.
  assert (Hidx : 0 <= idx < IPC_QUEUE_SIZE) by (apply aged_range; lia).
  destruct (Z.eqb_spec (num_pending_msg ch) 0); [lia|].
  rewrite (rd_lookup _ _ _ _ Hproc). cbn.
  rewrite (rd_lookup _ _ _ _ Hms), u32_small by lia.
  eexists _, idx, m. split; [reflexivity|].
  replace (Z.of_nat (length hist) - 1 - (num_pending_msg ch - 1))
    with (Z.of_nat (length hist) - num_pending_msg ch) in * by lia.
  match goal with |- ring_inv ?c _ _ /\ _ => set (ch' := c) end.
  split; [|repeat split; try done].
  - split; try done; try (cbn; lia).
    + split; cbn; unfold wr; rewrite ?length_insert; done.
    + intros d Hd. change (aged ch' d) with (aged ch d).
      destruct (Hused d) as [Hproc' Hholds]; [cbn in Hd; lia|].
      assert (aged ch d <> idx)
        by (intros Heq; apply aged_inj in Heq; cbn in Hd; lia).
      pose proof (aged_range ch d).
      split.
      * cbn. unfold wr. rewrite list_lookup_insert_ne by (cbn in Hd; lia).
        exact Hproc'.
      * exact Hholds.
    + intros d Hd. change (aged ch' d) with (aged ch d). cbn in *. unfold wr.
      destruct (decide (d = num_pending_msg ch - 1)) as [->|Hne].
      * apply list_lookup_insert_eq. lia.
      * assert (aged ch d <> idx)
          by (intros Heq; apply aged_inj in Heq; lia).
        pose proof (aged_range ch d).
        rewrite list_lookup_insert_ne by lia. apply Hunused. lia.
  - apply rd_lookup. exact Hw.
  - unfold slot_bytes. cbn. rewrite (rd_lookup _ _ _ _ Hslot), Nat2Z.id.
    exact Htk.
Qed.

Lemma pop_empty ch :
  num_pending_msg ch = 0 -> get_next_pending_buff ch = (ch, None).
Proof. intros H. unfold get_next_pending_buff. rewrite H. reflexivity. Qed.

Lemma insert_fill {A} (l : list A) n x :
  (n < length l)%nat ->
  <[n:=x]> (replicate n x ++ drop n l) = replicate (S n) x ++ drop (S n) l.
Proof.
  intros Hn. destruct (lookup_lt_is_Some_2 l n Hn) as [y Hy].
  rewrite insert_app_r_alt by (rewrite length_replicate; lia).
  rewrite length_replicate, Nat.sub_diag, (drop_S _ _ _ Hy).
  rewrite replicate_S_end, <- app_assoc. reflexivity.
Qed.

(** The inner loop of [init_state_vars] after [n] iterations. *)
Lemma init_loop n ch :
  (n <= length (msg_size ch))%nat -> (n <= length (msg_processed ch))%nat ->
  foldl (fun ch idx =>
           let ch := set_msg_size ch (wr (msg_size ch) idx 0) in
           set_msg_processed ch (wr (msg_processed ch) idx true))
        ch (seqZ 0 (Z.of_nat n)) =
  Build_chan (chan_pool ch)
    (replicate n 0 ++ drop n (msg_size ch))
    (replicate n true ++ drop n (msg_processed ch))
    (free_buff_idx ch) (num_pending_msg ch) (instance_id ch) (channel_id ch).
Proof.
  induction n as [|n IH]; intros Hs Hp.
  - cbn. rewrite !drop_0. destruct ch; reflexivity.
  - rewrite seqZ_S, foldl_app, IH by lia. cbn. unfold wr.
    rewrite Z.add_0_l, Nat2Z.id, !insert_fill by lia. reflexivity.
Qed.

Lemma init_chan_eq ch :
  chan_shape ch ->
  init_chan ch =
    Build_chan (chan_pool ch)
      (replicate (Z.to_nat IPC_QUEUE_SIZE) 0)
      (replicate (Z.to_nat IPC_QUEUE_SIZE) true)
      0 0 (instance_id ch) (channel_id ch).
Proof.
  intros [Hpl Hsl Hzl Hprl]. unfold init_chan.
  rewrite <- (Z2Nat.id IPC_QUEUE_SIZE) at 1 by lia.
  rewrite init_loop by (cbn; lia). cbn.
  rewrite !drop_ge, !app_nil_r by lia. reflexivity.
Qed.

(** The reset state satisfies the invariant with an empty history. *)
Lemma init_inv ch :
  chan_shape ch ->
  ring_inv (init_chan ch) (replicate (Z.to_nat IPC_QUEUE_SIZE) 0) [].
Proof.
  intros Hsh. rewrite init_chan_eq by done. destruct Hsh as [Hpl Hsl Hzl Hprl].
  split; cbn; try lia.
  - split; cbn; rewrite ?length_replicate; done.
  - apply length_replicate.
  - apply Forall_replicate. lia.
  - intros d Hd.
    pose proof (aged_range
      (Build_chan (chan_pool ch) (replicate (Z.to_nat IPC_QUEUE_SIZE) 0)
         (replicate (Z.to_nat IPC_QUEUE_SIZE) true) 0 0 (instance_id ch)
         (channel_id ch)) d) as Hr. cbn in Hr.
    apply lookup_replicate_2. lia.
Qed.

(** ** Executions under the invariant *)

Lemma tpush_inv t hist buf :
  ring_inv (t_descr t) (t_writer t) hist ->
  t_count t = Z.of_nat (length hist) ->
  Z.of_nat (length buf) <= IPCF_BUF_LEN ->
  ring_inv (t_descr (tpush t buf)) (t_writer (tpush t buf)) (hist ++ [buf]) /\
  t_count (tpush t buf) = Z.of_nat (length (hist ++ [buf])) /\
  num_pending_msg (t_descr (tpush t buf)) =
    Z.min IPC_QUEUE_SIZE (num_pending_msg (t_descr t) + 1).
Proof.
  intros Hinv Hc Hbuf. unfold tpush. cbn [t_descr t_writer t_count].
  pose proof (inv_free _ _ _ Hinv) as Hf.
  pose proof (inv_pending _ _ _ Hinv) as Hp.
  rewrite get_next_free_buff_eq by lia. cbn [snd]. rewrite Hc.
  split; [apply push_inv; done|].
  split; [rewrite length_app; cbn; lia|].
  rewrite push_eq by lia. reflexivity.
Qed.

Lemma trun_inv ops : forall t hist,
  ring_inv (t_descr t) (t_writer t) hist ->
  t_count t = Z.of_nat (length hist) ->
  Forall fits ops ->
  ring_inv (t_descr (trun ops t).1) (t_writer (trun ops t).1)
    (hist ++ pushes_of ops) /\
  t_count (trun ops t).1 = Z.of_nat (length (hist ++ pushes_of ops)) /\
  Forall (fun kb : Z * list Z =>
            Z.of_nat (length hist) - num_pending_msg (t_descr t) <= kb.1 /\
            (hist ++ pushes_of ops) !! Z.to_nat kb.1 = Some kb.2)
         (trun ops t).2 /\
  StronglySorted Z.lt ((trun ops t).2.*1).
Proof.
  induction ops as [|[buf|] ops IH]; intros t hist Hinv Hc Hfits.
  - cbn. rewrite app_nil_r. split_and!; try done; constructor.
  - apply Forall_cons_1 in Hfits as [Hbuf Hfits]. cbn in Hbuf.
    destruct (tpush_inv t hist buf Hinv Hc Hbuf) as (Hinv' & Hc' & Hp').
    destruct (IH _ _ Hinv' Hc' Hfits) as (H1 & H2 & H3 & H4).
    pose proof (inv_pending _ _ _ Hinv) as Hp.
    cbn [trun pushes_of omap list_omap].
    rewrite Hp' in H3. rewrite <- app_assoc in H1, H2, H3.
    split_and!; try done.
    revert H3; apply List.Forall_impl. intros [k b] [Hk Hb].
    split; [|done]. rewrite length_app in Hk. cbn in Hk |- *. lia.
  - apply Forall_cons_1 in Hfits as [_ Hfits].
    cbn [trun pushes_of omap list_omap]. unfold tpop.
    pose proof (inv_pending _ _ _ Hinv) as Hp.
    pose proof (inv_hist _ _ _ Hinv) as Hh.
    destruct (decide (num_pending_msg (t_descr t) = 0)) as [H0|H0].
    + rewrite pop_empty by done. cbn.
      destruct t as [ch w c]. cbn in *.
      specialize (IH (Build_traced ch w c) hist Hinv Hc Hfits).
      destruct (trun ops (Build_traced ch w c)) as [t' out]. exact IH.
    + destruct (pop_inv _ _ _ Hinv) as (ch' & idx & m & -> & Hinv' & Hp' & Hm & Hw & Hb);
        [lia|]. cbn. rewrite Hw, Hb.
      specialize (IH (Build_traced ch' (t_writer t) (t_count t)) hist Hinv' Hc Hfits).
      destruct (trun ops (Build_traced ch' (t_writer t) (t_count t)))
        as [t' out]. cbn in *.
      destruct IH as (H1 & H2 & H3 & H4).
      split_and!; try done.
      * constructor.
        -- cbn. split; [lia|]. apply lookup_app_l_Some. exact Hm.
        -- revert H3; apply List.Forall_impl. cbn. intros [k b] [Hk Hkb].
           cbn in *. split; [lia|done].
      * constructor; [done|].
        apply Forall_fmap. revert H3; apply List.Forall_impl.
        cbn. intros [k b] [Hk _]. cbn in *. lia.
Qed.

(** The bookkeeping does not alter what the driver code does. *)
Lemma trun_erase ops : forall t,
  t_descr (trun ops t).1 = (run ops (t_descr t)).1 /\
  Some <$> (trun ops t).2.*2 =
    filter is_Some (run ops (t_descr t)).2.
Proof.
  induction ops as [|[buf|] ops IH]; intros t.
  - done.
  - cbn [trun run]. apply (IH (tpush t buf)).
  - cbn [trun run]. unfold tpop, pop.
    destruct (get_next_pending_buff (t_descr t)) as [ch r].
    specialize (IH (Build_traced ch (t_writer t) (t_count t))).
    destruct (trun ops (Build_traced ch (t_writer t) (t_count t))) as [t' out].
    cbn [t_descr fst snd] in IH. destruct (run ops ch) as [ch' rs].
    cbn [fst snd] in *.
    destruct IH as [-> IH]. split; [done|].
    destruct r as [[idx size]|]; cbn [fmap option_fmap option_map].
    + rewrite filter_cons_True by (cbn; eauto).
      rewrite !fmap_cons, IH. done.
    + rewrite filter_cons_False by (intros [? ?]; done). done.
Qed.

Lemma run_inv ops ch writer hist :
  ring_inv ch writer hist -> Forall fits ops ->
  exists writer', ring_inv (run ops ch).1 writer' (hist ++ pushes_of ops).
Proof.
  intros Hinv Hfits.
  destruct (trun_inv ops (Build_traced ch writer (Z.of_nat (length hist)))
              hist Hinv eq_refl Hfits) as (H1 & _).
  destruct (trun_erase ops (Build_traced ch writer (Z.of_nat (length hist))))
    as [He _].
  rewrite He in H1. eauto.
Qed.

Lemma reachable_inv ch :
  reachable ch -> exists writer hist, ring_inv ch writer hist.
Proof.
  intros (ch0 & ops & Hsh & Hfits & ->).
  destruct (run_inv ops _ _ _ (init_inv ch0 Hsh) Hfits) as [w Hw]. eauto.
Qed.

(** Pushes alone: the pending count saturates at the queue size. *)
Lemma pushes_inv msgs : forall ch writer hist,
  ring_inv ch writer hist ->
  Forall (fun m => Z.of_nat (length m) <= IPCF_BUF_LEN) msgs ->
  exists writer',
    ring_inv (run (Push <$> msgs) ch).1 writer' (hist ++ msgs) /\
    num_pending_msg (run (Push <$> msgs) ch).1 =
      Z.min IPC_QUEUE_SIZE (num_pending_msg ch + Z.of_nat (length msgs)).
Proof.
  induction msgs as [|m msgs IH]; intros ch writer hist Hinv Hfits.
  - exists writer. cbn. rewrite app_nil_r.
    pose proof (inv_pending _ _ _ Hinv). split; [done|lia].
  - apply Forall_cons_1 in Hfits as [Hm Hfits]. cbn [fmap list_fmap run].
    pose proof (inv_pending _ _ _ Hinv) as Hp.
    pose proof (inv_free _ _ _ Hinv) as Hf.
    destruct (IH _ _ _ (push_inv _ _ _ _ Hinv Hm) Hfits) as (w & Hw & Hpend).
    exists w. rewrite <- app_assoc in Hw. split; [exact Hw|].
    change (list_fmap _ _ Push msgs) with (Push <$> msgs).
    rewrite Hpend, push_eq by lia. cbn [num_pending_msg length]. lia.
Qed.

(** Pops alone: the pending messages come out oldest first, then nothing. *)
Lemma pops_inv n : forall ch writer hist,
  ring_inv ch writer hist ->
  pops n ch =
    take n (Some <$> drop (Z.to_nat (Z.of_nat (length hist) - num_pending_msg ch))
                       hist)
    ++ replicate (n - Z.to_nat (num_pending_msg ch)) None.
Proof.
  induction n as [|n IH]; intros ch writer hist Hinv; [done|].
  pose proof (inv_pending _ _ _ Hinv) as Hp.
  pose proof (inv_hist _ _ _ Hinv) as Hh.
  unfold pops in *. cbn [replicate run]. unfold pop.
  destruct (decide (num_pending_msg ch = 0)) as [H0|H0].
  - rewrite pop_empty by done. cbn [fmap option_fmap option_map].
    specialize (IH ch writer hist Hinv).
    destruct (run (replicate n Pop) ch) as [ch' rs]. cbn [snd] in *.
    rewrite IH, H0, Z.sub_0_r, Nat2Z.id, drop_all.
    change (Z.to_nat 0) with 0%nat. rewrite !Nat.sub_0_r, fmap_nil, !take_nil.
    reflexivity.
  - destruct (pop_inv _ _ _ Hinv) as (ch' & idx & m & -> & Hinv' & Hp' & Hm & _ & Hb);
      [lia|].
    cbn [fmap option_fmap option_map]. rewrite Hb.
    specialize (IH ch' writer hist Hinv').
    destruct (run (replicate n Pop) ch') as [ch'' rs]. cbn [snd] in *.
    rewrite IH, Hp', (drop_S _ _ _ Hm), fmap_cons. cbn [take].
    replace (S (Z.to_nat (Z.of_nat (length hist) - num_pending_msg ch)))
      with (Z.to_nat (Z.of_nat (length hist) - (num_pending_msg ch - 1)))
      by lia.
    replace (S n - Z.to_nat (num_pending_msg ch))%nat
      with (n - Z.to_nat (num_pending_msg ch - 1))%nat by lia.
    reflexivity.
Qed.

Lemma StronglySorted_lt_NoDup (l : list Z) : StronglySorted Z.lt l -> NoDup l.
Proof.
  induction 1 as [|x l Hs IH Hall]; constructor; [|done].
  intros Hin. apply list_elem_of_In in Hin.
  rewrite List.Forall_forall in Hall. specialize (Hall x Hin). lia.
Qed.

Lemma trun_app a : forall b t,
  trun (a ++ b) t =
    let '(t1, o1) := trun a t in
    let '(t2, o2) := trun b t1 in
    (t2, o1 ++ o2).
Proof.
  induction a as [|[buf|] a IH]; intros b t.
  - cbn. destruct (trun b t). reflexivity.
  - cbn [app trun]. apply IH.
  - cbn [app trun]. destruct (tpop t) as [t' r]. rewrite IH.
    destruct (trun a t') as [t1 o1], (trun b t1) as [t2 o2].
    destruct r; reflexivity.
Qed.

Lemma trun_pushes msgs : forall t, (trun (Push <$> msgs) t).2 = [].
Proof.
  induction msgs as [|m msgs IH]; intros t; [reflexivity|]. apply IH.
Qed.

Lemma fits_pushes msgs :
  Forall (fun m => Z.of_nat (length m) <= IPCF_BUF_LEN) msgs ->
  Forall fits (Push <$> msgs).
Proof. intros H. apply Forall_fmap. exact H. Qed.

Lemma pushes_of_pushes msgs : pushes_of (Push <$> msgs) = msgs.
Proof.
  induction msgs as [|m msgs IH]; [reflexivity|].
  cbn. f_equal. exact IH.
Qed.

Lemma slot_pending_age ch i :
  0 <= free_buff_idx ch <= IPC_QUEUE_SIZE ->
  0 <= num_pending_msg ch <= IPC_QUEUE_SIZE ->
  0 <= i < IPC_QUEUE_SIZE ->
  slot_pending ch i =
    ((free_buff_idx ch - 1 - i) mod IPC_QUEUE_SIZE <? num_pending_msg ch).
Proof.
  intros Hf Hp Hi. unfold slot_pending, in_half_open, range_lo, range_hi.
  rewrite (mod_window (free_buff_idx ch - num_pending_msg ch)) by lia.
  rewrite (mod_window (free_buff_idx ch)) by lia.
  rewrite (mod_window (free_buff_idx ch - 1 - i)) by lia.
  repeat case_match; lia.
Qed.

(** ** The length prefix *)

Lemma mask_bit (k n : Z) : 0 <= k -> 0 <= n ->
  Z.testbit (Z.shiftl 255 k) n = (k <=? n) && (n <? k + 8).
Proof.
  intros Hk Hn. change 255 with (Z.ones 8).
  rewrite Z.shiftl_spec by lia.
  destruct (Z.leb_spec k n).
  - rewrite Z.testbit_ones_nonneg by lia. cbn.
    destruct (Z.ltb_spec (n - k) 8), (Z.ltb_spec n (k + 8)); try lia;
      reflexivity.
  - rewrite Z.testbit_neg_r by lia. reflexivity.
Qed.

Lemma masked_bit x k n : 0 <= k ->
  Z.testbit (Z.land x (Z.shiftl 255 k)) n
  = Z.testbit x n && (k <=? n) && (n <? k + 8).
Proof.
  intros Hk. destruct (Z.ltb_spec n 0).
  - rewrite !Z.testbit_neg_r by lia. reflexivity.
  - rewrite Z.land_spec, mask_bit by lia. apply andb_assoc.
Qed.

Lemma byte_bit x j n : 0 <= j -> 0 <= n ->
  Z.testbit ((x / 2 ^ j) mod 256) n = (n <? 8) && Z.testbit x (n + j).
Proof.
  intros. change 256 with (2 ^ 8). rewrite <- Z.land_ones by lia.
  rewrite Z.land_spec, <- Z.shiftr_div_pow2, Z.shiftr_spec by lia.
  rewrite Z.testbit_ones_nonneg by lia.
  destruct (n <? 8); cbn; rewrite ?andb_true_r, ?andb_false_r; reflexivity.
Qed.

Ltac cmp_cases :=
  repeat match goal with
  | |- context [?a <=? ?b] => destruct (Z.leb_spec a b)
  | |- context [?a <? ?b] => destruct (Z.ltb_spec a b)
  end.

(** Byte [k / 8] of the swapped word is byte [3 - k / 8] of the word. *)
Lemma swab_byte x k :
  k = 0 \/ k = 8 \/ k = 16 \/ k = 24 ->
  Z.land (Z.shiftr (swab32 x) k) 0xff = (x / 2 ^ (24 - k)) mod 256.
Proof.
  intros Hk. apply Z.bits_inj'. intros n Hn.
  rewrite byte_bit by lia.
  change 0xff with (Z.shiftl 255 0). rewrite masked_bit by lia.
  rewrite Z.shiftr_spec by lia. unfold swab32.
  change 0x000000ff with (Z.shiftl 255 0).
  change 0x0000ff00 with (Z.shiftl 255 8).
  change 0x00ff0000 with (Z.shiftl 255 16).
  change 0xff000000 with (Z.shiftl 255 24).
  rewrite !Z.lor_spec, !Z.shiftl_spec, !Z.shiftr_spec, !masked_bit by lia.
  destruct Hk as [->|[->|[->| ->]]]; cmp_cases; try lia;
    rewrite ?andb_false_r, ?andb_true_r, ?orb_false_r, ?orb_false_l;
    try reflexivity; cbn [andb]; f_equal; lia.
Qed.

(** The length prefix placed in user memory is the big-endian encoding. *)
Lemma prefix_bytes x : bytes_of_u32 (cpu_to_be32 x) = be32_encode x.
Proof.
  unfold bytes_of_u32, be32_encode, cpu_to_be32.
  rewrite <- (Z.shiftr_0_r (swab32 x)) at 1.
  rewrite !swab_byte by lia. cbn. rewrite Z.div_1_r. reflexivity.
Qed.

Lemma be32_round_trip x : 0 <= x < 2 ^ 32 -> be32_decode (be32_encode x) = x.
Proof.
  intros Hx. unfold be32_decode, be32_encode. cbn [foldl].
  Z.div_mod_to_equations. lia.
Qed.

Lemma get_next_pending_buff_pool ch ch' r :
  get_next_pending_buff ch = (ch', r) -> chan_pool ch' = chan_pool ch.
Proof.
  unfold get_next_pending_buff. intros H.
  repeat case_match; simplify_eq; reflexivity.
Qed.

(** In a reachable state, what a pop hands out fits a slot. *)
Lemma reachable_pop_size ch ch' idx S :
  reachable ch ->
  get_next_pending_buff ch = (ch', Some (idx, S)) ->
  0 <= S <= IPCF_BUF_LEN /\
  S <= Z.of_nat (length (rd [] (chan_pool ch) idx)).
Proof.
  intros Hr Hpop. destruct (reachable_inv ch Hr) as (w & hist & Hinv).
  pose proof (inv_pending _ _ _ Hinv) as Hp.
  destruct (decide (num_pending_msg ch = 0)) as [H0|H0].
  { rewrite pop_empty in Hpop by done. simplify_eq. }
  destruct (pop_inv _ _ _ Hinv) as (c & i & m & Hpop' & _ & _ & _ & _ & Hb);
    [lia|].
  rewrite Hpop in Hpop'. simplify_eq.
  assert (Hsz : 0 <= Z.of_nat (length m) <= IPCF_BUF_LEN).
  { unfold get_next_pending_buff in Hpop.
    repeat case_match; simplify_eq. cbn in *.
    match goal with H : rd 0 _ _ = _ |- _ => rewrite <- H end.
    unfold rd. destruct (msg_size ch !! _) as [z|] eqn:Hz; cbn; [|lia].
    exact (Forall_lookup_1 _ _ _ _ (inv_sizes _ _ _ Hinv) Hz). }
  split; [exact Hsz|].
  unfold slot_bytes in Hb.
  rewrite (get_next_pending_buff_pool _ _ _ Hpop) in Hb.
  apply (f_equal length) in Hb. rewrite length_take in Hb. lia.
Qed.

Lemma ssize_small z : 0 <= z < 2 ^ 33 -> to_ssize (usize z) = z.
Proof.
  intros Hz. unfold to_ssize, usize. rewrite Z.mod_small by lia.
  destruct (Z.ltb_spec z (2 ^ 63)); lia.
Qed.

Ltac unfold_m :=
  unfold mbind, M_bind, mret, M_ret, printk, release_buf, acquire_buf,
    shm_tx, emit, get_descrs, set_descr, get_log in *;
  cbn [fst snd ipc_ch_descr klog] in *.

(** [ipcf_read] when the pop hands out a message of [S] bytes. *)
Lemma ipcf_read_pending w minor ch ch' idx S ucap max_length :
  ipc_ch_descr w !! Z.to_nat minor = Some ch ->
  get_next_pending_buff ch = (ch', Some (idx, S)) ->
  0 <= S < 2 ^ 32 ->
  (ipcf_read minor ucap max_length w).1 =
    if prepend_size (instance_id ch) (channel_id ch) then
      if copy_to_user_ok ucap 0 4 then
        if copy_to_user_ok ucap 4 S then
          (4 + S, be32_encode S ++ slot_bytes ch idx S)
        else (- EFAULT,
              be32_encode S
              ++ take (Z.to_nat (ucap - 4)) (slot_bytes ch idx S))
      else (- EFAULT, take (Z.to_nat ucap) (be32_encode S))
    else
      if copy_to_user_ok ucap 0 S then (S, slot_bytes ch idx S)
      else (- EFAULT, take (Z.to_nat ucap) (slot_bytes ch idx S)).
Proof.
  intros Hch Hpop HS. unfold ipcf_read. unfold_m. rewrite Hch, Hpop.
  unfold_m. cbn [from_option snd].
  assert (Hb : slot_bytes ch' idx S = slot_bytes ch idx S)
    by (unfold slot_bytes; rewrite (get_next_pending_buff_pool _ _ _ Hpop);
        reflexivity).
  unfold copy_to_user. fold (slot_bytes ch' idx S).
  rewrite prefix_bytes, Hb, !Z.sub_0_r.
  change (usize (0 + 4)) with 4.
  change (to_ssize (usize (- EFAULT))) with (- EFAULT).
  rewrite Z.add_0_l, !ssize_small by lia.
  assert (Hpre : take (Z.to_nat 4) (be32_encode S) = be32_encode S)
    by reflexivity.
  assert (Hlen : (length (slot_bytes ch idx S) <= Z.to_nat S)%nat)
    by (unfold slot_bytes; rewrite length_take; lia).
  unfold copy_to_user_ok. rewrite Hpre.
  destruct (prepend_size _ _).
  - destruct (Z.leb_spec (0 + 4) ucap); unfold_m; [|reflexivity].
    rewrite (take_ge (be32_encode S)) by (cbn [length be32_encode]; lia).
    destruct (Z.leb_spec (4 + S) ucap); unfold_m; [|reflexivity].
    rewrite take_ge by lia. reflexivity.
  - destruct (Z.leb_spec (0 + S) ucap); unfold_m; [|reflexivity].
    rewrite take_ge by lia. reflexivity.
Qed.

(** ** Properties of the ring *)

(** C1. Capacity bound: from the reset state, after [N + k] stores
    ([k >= 1], every message fitting a slot) and no pop, any number [n] of
    pops returns the [N] most recent messages in arrival order and then
    nothing; and however the execution goes on, no pop ever returns a slot
    written by one of the [k] oldest stores. *)
Theorem capacity_bound ch0 (msgs : list (list Z)) (k n : nat) :
  chan_shape ch0 ->
  (1 <= k)%nat ->
  length msgs = (Z.to_nat IPC_QUEUE_SIZE + k)%nat ->
  Forall (fun m => Z.of_nat (length m) <= IPCF_BUF_LEN) msgs ->
  pops n (run (Push <$> msgs) (init_chan ch0)).1 =
    take n (Some <$> drop k msgs)
    ++ replicate (n - Z.to_nat IPC_QUEUE_SIZE) None /\
  forall rest, Forall fits rest ->
    Forall (fun kb : Z * list Z => Z.of_nat k <= kb.1)
      (trun ((Push <$> msgs) ++ rest)
         (Build_traced (init_chan ch0)
            (replicate (Z.to_nat IPC_QUEUE_SIZE) 0) 0)).2.
Proof.
  intros Hsh Hk Hlen Hfit.
  destruct (pushes_inv msgs _ _ _ (init_inv ch0 Hsh) Hfit) as (w & Hinv & Hp).
  assert (H0 : num_pending_msg (init_chan ch0) = 0)
    by (rewrite init_chan_eq by done; reflexivity).
  rewrite H0 in Hp.
  replace (Z.min IPC_QUEUE_SIZE (0 + Z.of_nat (length msgs)))
    with IPC_QUEUE_SIZE in Hp by lia.
  split.
  - rewrite (pops_inv n _ _ _ Hinv), Hp. cbn [app].
    replace (Z.to_nat (Z.of_nat (length msgs) - IPC_QUEUE_SIZE)) with k by lia.
    reflexivity.
  - intros rest Hrest.
    set (t0 := Build_traced (init_chan ch0) _ 0).
    rewrite trun_app.
    pose proof (trun_pushes msgs t0) as Hout.
    destruct (trun_inv (Push <$> msgs) t0 [] (init_inv ch0 Hsh) eq_refl
                (fits_pushes msgs Hfit)) as (Hinv1 & Hc1 & _).
    destruct (trun_erase (Push <$> msgs) t0) as [Hd1 _].
    rewrite pushes_of_pushes in Hinv1, Hc1.
    destruct (trun (Push <$> msgs) t0) as [t1 o1]. cbn [fst snd] in *.
    subst o1.
    destruct (trun_inv rest t1 msgs Hinv1 Hc1 Hrest) as (_ & _ & H3 & _).
    destruct (trun rest t1) as [t2 o2]. cbn [fst snd app] in *.
    revert H3. apply List.Forall_impl. intros [kk b] [Hkk _].
    cbn [fst] in *. rewrite Hd1 in Hkk.
    change (t_descr t0) with (init_chan ch0) in Hkk. lia.
Qed.

(** C2. No double delivery: in any execution from the reset state, the
    pops that return a message return slots written by pairwise distinct
    pushes, in increasing push order, and each returns the bytes of that
    push; the bytes are those the driver code itself hands out. *)
Theorem no_double_delivery ch0 ops :
  chan_shape ch0 ->
  Forall fits ops ->
  let t0 := Build_traced (init_chan ch0)
              (replicate (Z.to_nat IPC_QUEUE_SIZE) 0) 0 in
  let out := (trun ops t0).2 in
  NoDup out.*1 /\
  StronglySorted Z.lt out.*1 /\
  Forall (fun kb : Z * list Z =>
            0 <= kb.1 /\ pushes_of ops !! Z.to_nat kb.1 = Some kb.2) out /\
  Some <$> out.*2 = filter is_Some (run ops (init_chan ch0)).2.
Proof.
  intros Hsh Hfits t0 out.
  destruct (trun_inv ops t0 [] (init_inv ch0 Hsh) eq_refl Hfits)
    as (_ & _ & H3 & H4).
  split_and!.
  - apply StronglySorted_lt_NoDup. exact H4.
  - exact H4.
  - revert H3. apply List.Forall_impl. intros [kk b] [Hk Hb].
    subst t0. rewrite init_chan_eq in Hk by done. cbn in Hk.
    split; [cbn; lia | exact Hb].
  - apply (trun_erase ops t0).
Qed.

(** C3 (amended). In every reachable state the pending count is within
    [0, N], and a slot is unprocessed exactly when it is pending: inside
    the half-open range of the specification, or anywhere when the ring
    is full. *)
Theorem ring_invariant ch :
  reachable ch ->
  0 <= num_pending_msg ch <= IPC_QUEUE_SIZE /\
  forall i, 0 <= i < IPC_QUEUE_SIZE ->
    msg_processed ch !! Z.to_nat i = Some (negb (slot_pending ch i)).
Proof.
  intros Hr. destruct (reachable_inv ch Hr) as (w & hist & Hinv).
  pose proof (inv_pending _ _ _ Hinv) as Hp.
  pose proof (inv_free _ _ _ Hinv) as Hf.
  split; [done|]. intros i Hi.
  rewrite slot_pending_age by lia.
  destruct (aged_surj ch i Hf Hi) as [Hage Hd].
  set (d := (free_buff_idx ch - 1 - i) mod IPC_QUEUE_SIZE) in *.
  rewrite <- Hage at 1.
  destruct (Z.ltb_spec d (num_pending_msg ch)); cbn.
  - apply (inv_used _ _ _ Hinv). lia.
  - apply (inv_unused _ _ _ Hinv). lia.
Qed.

(** A store on a descriptor whose [free_buff_idx] and [num_pending_msg]
    do not exceed the queue size. *)
Lemma push_bounded ch buf size :
  chan_shape ch ->
  0 <= free_buff_idx ch <= IPC_QUEUE_SIZE ->
  0 <= num_pending_msg ch <= IPC_QUEUE_SIZE ->
  0 <= size <= IPCF_BUF_LEN ->
  size <= Z.of_nat (length buf) ->
  push_claim ch buf size.
Proof.
  intros [Hpl Hsl Hzl Hprl] Hf Hp Hsz Hbuf. unfold push_claim.
  rewrite push_eq, get_next_free_buff_eq by lia. cbn.
  set (s := free_buff_idx ch mod IPC_QUEUE_SIZE).
  assert (Hs : 0 <= s < IPC_QUEUE_SIZE) by (subst s; mod_cases).
  unfold slot_bytes, rd, wr. cbn.
  rewrite !list_lookup_insert_eq by lia. cbn.
  split_and!; try done.
  - unfold memcpy. apply take_app_length'. rewrite length_take. lia.
  - subst s. apply Zplus_mod_idemp_l.
  - intros Hfull. unfold pending_idx. subst s.
    rewrite !u32_small by (rewrite ?u32_small; lia).
    mod_cases.
Qed.

(** C4. In every state a descriptor can be in (reset by [init_state_vars],
    then any stores and pops), a store of [size] bytes that fit a slot
    writes them into the slot [free_buff_idx] names, records [size],
    clears the processed flag, advances [free_buff_idx] by one modulo [N]
    and the pending count by one up to [N]; on a full ring the slot
    written is the oldest pending one, and the store is made all the
    same. *)
Theorem push_contract ch buf size :
  reachable ch ->
  0 <= size <= IPCF_BUF_LEN ->
  size <= Z.of_nat (length buf) ->
  push_claim ch buf size.
Proof.
  intros Hr Hsz Hbuf. destruct (reachable_inv ch Hr) as (w & hist & Hinv).
  apply push_bounded; try assumption.
  - apply (inv_shape _ _ _ Hinv).
  - apply (inv_free _ _ _ Hinv).
  - apply (inv_pending _ _ _ Hinv).
Qed.

(** C8. Empty drain: when nothing is pending, or the oldest pending slot
    is already marked processed, any number of pops return no message and
    leave the descriptor as it was. *)
Theorem empty_drain ch (n : nat) :
  num_pending_msg ch = 0 \/
    rd true (msg_processed ch) (pending_idx ch) = true ->
  run (replicate n Pop) ch = (ch, replicate n None).
Proof.
  intros Hempty.
  assert (Hpop : pop ch = (ch, None)).
  { unfold pop, get_next_pending_buff.
    destruct Hempty as [-> | ->]; [reflexivity|].
    destruct (num_pending_msg ch =? 0); reflexivity. }
  induction n as [|n IH]; [reflexivity|].
  cbn [replicate run]. rewrite Hpop, IH. reflexivity.
Qed.

(** ** Properties of the dispatcher *)

(** C6. Every invocation of the receive callback, whatever its outcome,
    calls [ipc_shm_release_buf] exactly once, on the buffer it was given. *)
Theorem release_exactly_once w inst_id chan_id buf size :
  exists new,
    klog (data_chan_rx_cb inst_id chan_id buf size w).2 = klog w ++ new /\
    List.filter is_release new = [EvRelease inst_id chan_id buf].
Proof.
  unfold data_chan_rx_cb. unfold_m.
  destruct (size <=? IPCF_BUF_LEN); unfold_m;
    [destruct (IPC_INVALID =? _); unfold_m;
       [|destruct (ipc_ch_descr w !! _); unfold_m]|];
    match goal with |- context [?e =? 0] => destruct (e =? 0) end;
    unfold_m; rewrite <- ?app_assoc;
    (eexists; split; [reflexivity | reflexivity]).
Qed.


(** C9. [ipcf_write] sends at most [IPCF_BUF_LEN] bytes, silently cutting
    a longer payload: when the transport hands out a buffer, the user
    memory is readable and the transmission succeeds, the first
    [min(L, IPCF_BUF_LEN)] bytes are transmitted, nothing is logged and
    that count is returned; when the transport has no buffer, the call
    returns [-ENOMEM] and transmits nothing. *)
Theorem write_contract w minor ch ubuf L :
  ipc_ch_descr w !! Z.to_nat minor = Some ch ->
  0 <= L ->
  let len := Z.min L IPCF_BUF_LEN in
  let inst_id := instance_id ch in
  let chan_id := channel_id ch in
  let data := take (Z.to_nat len) ubuf in
  let r := ipcf_write minor ubuf L w in
  (ipc_shm_acquire_buf (klog w) inst_id chan_id len = true ->
   len <= Z.of_nat (length ubuf) ->
   ipc_shm_tx (klog w ++ [EvAcquire inst_id chan_id len])
     inst_id chan_id data len = 0 ->
   r.1 = len /\
   klog r.2 = klog w ++ [EvAcquire inst_id chan_id len;
                         EvTx inst_id chan_id data len]) /\
  (ipc_shm_acquire_buf (klog w) inst_id chan_id len = false ->
   r.1 = - ENOMEM /\
   klog r.2 = klog w ++ [EvAcquire inst_id chan_id len;
                         EvPrintk (AcquireFailed inst_id chan_id len)] /\
   List.filter is_tx (klog r.2) = List.filter is_tx (klog w)).
Proof.
  intros Hch HL len inst_id chan_id data r. subst r.
  unfold ipcf_write. unfold_m. rewrite Hch.
  assert (Hlen : (if IPCF_BUF_LEN <? L then IPCF_BUF_LEN else L) = len)
    by (subst len; destruct (Z.ltb_spec IPCF_BUF_LEN L); lia).
  rewrite Hlen. fold inst_id chan_id. split.
  - intros Hacq Hcopy Htx. unfold_m. rewrite Hacq. cbn [negb].
    destruct (Z.leb_spec len (Z.of_nat (length ubuf))); [|lia]. cbn [negb].
    unfold_m. fold data. rewrite Htx. cbn.
    rewrite <- app_assoc. split; [|reflexivity].
    unfold to_ssize. destruct (Z.ltb_spec len (2 ^ 63)); lia.
  - intros Hacq. unfold_m. rewrite Hacq. cbn [negb]. unfold_m.
    rewrite <- app_assoc. split_and!; try reflexivity.
    rewrite List.filter_app. cbn. apply app_nil_r.
Qed.

(** ** Properties of the read path *)

(** C5. Framing round trip: a read that pops a message of [S] bytes and
    succeeds returns, on a length-prefixed channel, [4 + S] bytes, the
    big-endian encoding of [S] followed by the stored payload, and on a raw
    channel exactly the [S] stored bytes.  The two bounds on [S] say that
    the recorded size is a [uint32_t] within the slot; [reachable_pop_size]
    gives them in every reachable state. *)
Theorem framing_round_trip w minor ch ch' idx S ucap max_length :
  ipc_ch_descr w !! Z.to_nat minor = Some ch ->
  get_next_pending_buff ch = (ch', Some (idx, S)) ->
  0 <= S < 2 ^ 32 ->
  S <= Z.of_nat (length (rd [] (chan_pool ch) idx)) ->
  let r := (ipcf_read minor ucap max_length w).1 in
  0 <= r.1 ->
  if prepend_size (instance_id ch) (channel_id ch) then
    r.1 = 4 + S /\
    Z.of_nat (length r.2) = 4 + S /\
    take 4 r.2 = be32_encode S /\
    be32_decode (take 4 r.2) = S /\
    drop 4 r.2 = slot_bytes ch idx S
  else
    r.1 = S /\
    Z.of_nat (length r.2) = S /\
    r.2 = slot_bytes ch idx S.
Proof.
  intros Hch Hpop HS Hslot r. subst r.
  rewrite (ipcf_read_pending _ _ _ _ _ _ _ _ Hch Hpop HS).
  assert (Hlen : Z.of_nat (length (slot_bytes ch idx S)) = S)
    by (unfold slot_bytes; rewrite length_take; lia).
  unfold EFAULT.
  repeat case_match; cbn [fst snd]; intros Hret; try lia.
  - change 4%nat with (length (be32_encode S)).
    rewrite take_app_length, drop_app_length, length_app, be32_round_trip
      by lia.
    cbn [length be32_encode]. split_and!; try done. lia.
  - done.
Qed.

(** C10. The caller's [max_length] plays no part in a read: the call does
    the same whatever its value, and a pending message of [S] bytes is
    delivered whole, with its prefix if any, even when that is more than
    [max_length], as long as the user memory takes it. *)
Theorem read_ignores_max_length w minor ch ch' idx S ucap max_length :
  ipc_ch_descr w !! Z.to_nat minor = Some ch ->
  get_next_pending_buff ch = (ch', Some (idx, S)) ->
  0 <= S < 2 ^ 32 ->
  S <= Z.of_nat (length (rd [] (chan_pool ch) idx)) ->
  let pre := if prepend_size (instance_id ch) (channel_id ch)
             then 4 else 0 in
  pre + S <= ucap ->
  let r := ipcf_read minor ucap max_length w in
  (forall other_length, r = ipcf_read minor ucap other_length w) /\
  r.1.1 = pre + S /\
  Z.of_nat (length r.1.2) = pre + S.
Proof.
  intros Hch Hpop HS Hslot pre Hcap r. split; [reflexivity|]. subst r pre.
  rewrite (ipcf_read_pending _ _ _ _ _ _ _ _ Hch Hpop HS).
  assert (Hlen : Z.of_nat (length (slot_bytes ch idx S)) = S)
    by (unfold slot_bytes; rewrite length_take; lia).
  unfold copy_to_user_ok.
  destruct (prepend_size _ _).
  - destruct (Z.leb_spec (0 + 4) ucap); [|lia].
    destruct (Z.leb_spec (4 + S) ucap); [|lia].
    cbn [fst snd]. rewrite length_app. cbn [length be32_encode]. lia.
  - destruct (Z.leb_spec (0 + S) ucap); [|lia].
    cbn [fst snd]. lia.
Qed.

(** ** Further properties of the ring *)

Lemma run_app a : forall b ch,
  run (a ++ b) ch =
    let '(ch1, o1) := run a ch in
    let '(ch2, o2) := run b ch1 in
    (ch2, o1 ++ o2).
Proof.
  induction a as [|[buf|] a IH]; intros b ch.
  - cbn. destruct (run b ch). reflexivity.
  - cbn [app run]. apply IH.
  - cbn [app run]. destruct (pop ch) as [ch' r]. rewrite IH.
    destruct (run a ch') as [ch1 o1], (run b ch1) as [ch2 o2]. reflexivity.
Qed.

Lemma pending_msgs_length ch writer hist :
  ring_inv ch writer hist ->
  length (pending_msgs ch hist) = Z.to_nat (num_pending_msg ch).
Proof.
  intros Hinv. pose proof (inv_pending _ _ _ Hinv).
  pose proof (inv_hist _ _ _ Hinv).
  unfold pending_msgs. rewrite length_drop. lia.
Qed.

Lemma pops_pending n ch writer hist :
  ring_inv ch writer hist ->
  pops n ch = take n (Some <$> pending_msgs ch hist)
              ++ replicate (n - Z.to_nat (num_pending_msg ch)) None.
Proof. apply pops_inv. Qed.

Lemma delivered_app a b : delivered (a ++ b) = delivered a ++ delivered b.
Proof. unfold delivered. apply omap_app. Qed.

Lemma delivered_Some ms : delivered (Some <$> ms) = ms.
Proof.
  unfold delivered. induction ms as [|m ms IH]; [reflexivity|].
  cbn. f_equal. exact IH.
Qed.

Lemma delivered_None n : delivered (replicate n None) = [].
Proof. unfold delivered. induction n as [|n IH]; [reflexivity|exact IH]. Qed.

Lemma pushes_of_push buf ops : pushes_of (Push buf :: ops) = buf :: pushes_of ops.
Proof. reflexivity. Qed.

Lemma pushes_of_pop ops : pushes_of (Pop :: ops) = pushes_of ops.
Proof. reflexivity. Qed.

(** Conservation when no store overflows: what was pending and what is
    pushed is what is delivered and what is left pending. *)
Lemma run_conserves ops : forall ch writer hist,
  ring_inv ch writer hist ->
  Forall fits ops ->
  no_overflow ops ch = true ->
  pending_msgs ch hist ++ pushes_of ops =
    delivered (run ops ch).2
    ++ pending_msgs (run ops ch).1 (hist ++ pushes_of ops).
Proof.
  induction ops as [|[buf|] ops IH]; intros ch writer hist Hinv Hfits Hno.
  - cbn. rewrite !app_nil_r. reflexivity.
  - apply Forall_cons_1 in Hfits as [Hbuf Hfits]. cbn in Hbuf.
    cbn [no_overflow] in Hno. apply andb_prop in Hno as [Hlt Hno].
    pose proof (inv_pending _ _ _ Hinv) as Hp.
    pose proof (inv_free _ _ _ Hinv) as Hf.
    pose proof (inv_hist _ _ _ Hinv) as Hh.
    pose proof (push_inv _ _ _ _ Hinv Hbuf) as Hinv'.
    specialize (IH _ _ _ Hinv' Hfits Hno).
    cbn [run]. rewrite pushes_of_push.
    rewrite <- app_assoc in IH. cbn [app] in IH. rewrite <- IH.
    unfold pending_msgs at 1 2. rewrite push_eq by lia.
    cbn [num_pending_msg]. rewrite length_app. cbn [length].
    replace (Z.to_nat (Z.of_nat (length hist + 1)
                       - Z.min IPC_QUEUE_SIZE (num_pending_msg ch + 1)))
      with (Z.to_nat (Z.of_nat (length hist) - num_pending_msg ch)) by lia.
    rewrite drop_app_le by lia. rewrite <- app_assoc. reflexivity.
  - apply Forall_cons_1 in Hfits as [_ Hfits].
    cbn [no_overflow] in Hno. cbn [run]. rewrite pushes_of_pop.
    pose proof (inv_pending _ _ _ Hinv) as Hp.
    pose proof (inv_hist _ _ _ Hinv) as Hh.
    unfold pop in *.
    destruct (decide (num_pending_msg ch = 0)) as [H0|H0].
    + rewrite pop_empty in * by done. cbn [fst fmap option_fmap option_map] in *.
      specialize (IH _ _ _ Hinv Hfits Hno).
      destruct (run ops ch) as [ch' rs]. exact IH.
    + destruct (pop_inv _ _ _ Hinv) as (ch' & idx & m & Hpop & Hinv' & Hp' & Hm & _ & Hb);
        [lia|].
      rewrite Hpop in *. cbn [fst fmap option_fmap option_map] in *.
      specialize (IH _ _ _ Hinv' Hfits Hno).
      destruct (run ops ch') as [ch'' rs]. cbn [fst snd] in *.
      rewrite Hb. unfold delivered. cbn [omap list_omap id].
      fold (delivered rs). rewrite <- app_comm_cons, <- IH.
      unfold pending_msgs. rewrite Hp', (drop_S _ _ _ Hm).
      replace (S (Z.to_nat (Z.of_nat (length hist) - num_pending_msg ch)))
        with (Z.to_nat (Z.of_nat (length hist) - (num_pending_msg ch - 1)))
        by lia.
      reflexivity.
Qed.

(** X1.  Lossless FIFO: from the reset state, when no store finds the ring
    full, running [ops] and then draining the ring delivers every stored
    message exactly once, in the order of arrival. *)
Theorem fifo_lossless ch0 ops :
  chan_shape ch0 ->
  Forall fits ops ->
  no_overflow ops (init_chan ch0) = true ->
  delivered
    (run (ops ++ replicate (Z.to_nat IPC_QUEUE_SIZE) Pop) (init_chan ch0)).2
  = pushes_of ops.
Proof.
  intros Hsh Hfits Hno.
  pose proof (init_inv ch0 Hsh) as Hinv0.
  pose proof (run_conserves ops _ _ _ Hinv0 Hfits Hno) as Hcons.
  destruct (run_inv ops _ _ _ Hinv0 Hfits) as [w Hinv].
  cbn [app] in Hinv, Hcons.
  assert (Hpend0 : pending_msgs (init_chan ch0) [] = [])
    by (unfold pending_msgs; apply drop_nil).
  rewrite Hpend0 in Hcons. cbn [app] in Hcons.
  rewrite run_app.
  pose proof (pops_pending (Z.to_nat IPC_QUEUE_SIZE) _ _ _ Hinv) as Hpops.
  pose proof (pending_msgs_length _ _ _ Hinv) as Hlen.
  pose proof (inv_pending _ _ _ Hinv) as Hp.
  unfold pops in Hpops.
  destruct (run ops (init_chan ch0)) as [ch1 o1]. cbn [fst snd] in *.
  destruct (run (replicate (Z.to_nat IPC_QUEUE_SIZE) Pop) ch1) as [ch2 o2].
  cbn [fst snd] in *. subst o2.
  rewrite take_ge by (rewrite length_fmap; lia).
  rewrite !delivered_app, delivered_Some, delivered_None, app_nil_r.
  symmetry. exact Hcons.
Qed.

(** X2.  The pending count is exact: in a reachable state, of [n] pops in a row
    the first [min n num_pending_msg] return a message and the others
    return none. *)
Theorem pending_count_exact ch (n : nat) :
  reachable ch ->
  exists msgs,
    length msgs = (n `min` Z.to_nat (num_pending_msg ch))%nat /\
    pops n ch = (Some <$> msgs)
                ++ replicate (n - Z.to_nat (num_pending_msg ch)) None.
Proof.
  intros Hr. destruct (reachable_inv ch Hr) as (w & hist & Hinv).
  exists (take n (pending_msgs ch hist)). split.
  - rewrite length_take, (pending_msgs_length _ _ _ Hinv). reflexivity.
  - rewrite (pops_pending n _ _ _ Hinv), fmap_take. reflexivity.
Qed.

(** X3.  Memory safety of the ring: in a reachable state the slot a store is
    given and the slot a pop looks at are inside the pool, and the size a
    pop hands to the reader is at most the length of a slot. *)
Theorem ring_memory_safety ch size :
  reachable ch ->
  0 <= (get_next_free_buff ch size).2 < IPC_QUEUE_SIZE /\
  0 <= pending_idx ch < IPC_QUEUE_SIZE /\
  forall ch' idx S,
    get_next_pending_buff ch = (ch', Some (idx, S)) ->
    0 <= idx < IPC_QUEUE_SIZE /\
    0 <= S <= IPCF_BUF_LEN /\
    length (rd [] (chan_pool ch) idx) = Z.to_nat IPCF_BUF_LEN.
Proof.
  intros Hr. destruct (reachable_inv ch Hr) as (w & hist & Hinv).
  pose proof (inv_pending _ _ _ Hinv) as Hp.
  pose proof (inv_free _ _ _ Hinv) as Hf.
  assert (Hidx : 0 <= pending_idx ch < IPC_QUEUE_SIZE)
    by (apply Z.mod_pos_bound; lia).
  split; [|split].
  - rewrite get_next_free_buff_eq by lia. cbn [snd].
    apply Z.mod_pos_bound. lia.
  - exact Hidx.
  - intros ch' idx S Hpop.
    assert (idx = pending_idx ch) as ->.
    { unfold get_next_pending_buff in Hpop.
      repeat case_match; simplify_eq; reflexivity. }
    split; [exact Hidx|].
    split; [apply (reachable_pop_size _ _ _ _ Hr Hpop)|].
    destruct (inv_shape _ _ _ Hinv) as [Hpl Hsl _ _].
    destruct (lookup_lt_is_Some_2 (chan_pool ch) (Z.to_nat (pending_idx ch)))
      as [slot Hslot]; [lia|].
    rewrite (rd_lookup _ _ _ _ Hslot).
    exact (Forall_lookup_1 _ _ _ _ Hsl Hslot).
Qed.

(** X4.  [init_state_vars] empties every ring whatever it held: afterwards no
    pop returns a message, while the pool bytes and the identity of each
    channel are as before; a second reset changes nothing. *)
Theorem reset_discards_pending descrs (n : nat) :
  Forall chan_shape descrs ->
  length (init_state_vars descrs) = length descrs /\
  (forall i ch, descrs !! i = Some ch ->
     exists ch', init_state_vars descrs !! i = Some ch' /\
       num_pending_msg ch' = 0 /\
       pops n ch' = replicate n None /\
       chan_pool ch' = chan_pool ch /\
       instance_id ch' = instance_id ch /\
       channel_id ch' = channel_id ch) /\
  init_state_vars (init_state_vars descrs) = init_state_vars descrs.
Proof.
  intros Hsh. unfold init_state_vars. split; [apply length_fmap|]. split.
  - intros i ch Hi. exists (init_chan ch).
    rewrite list_lookup_fmap, Hi.
    pose proof (Forall_lookup_1 _ _ _ _ Hsh Hi) as Hch.
    pose proof (init_inv ch Hch) as Hinv.
    split; [reflexivity|]. rewrite (pops_pending n _ _ _ Hinv).
    rewrite init_chan_eq by done. cbn [num_pending_msg chan_pool instance_id
                                        channel_id].
    split_and!; try reflexivity.
    unfold pending_msgs. rewrite drop_nil, fmap_nil, take_nil.
    cbn [app num_pending_msg]. change (Z.to_nat 0) with 0%nat.
    rewrite Nat.sub_0_r. reflexivity.
  - rewrite <- list_fmap_compose. apply Forall_fmap_ext_1.
    revert Hsh. apply List.Forall_impl. intros ch Hch. cbn.
    pose proof (inv_shape _ _ _ (init_inv ch Hch)) as Hch'.
    rewrite (init_chan_eq (init_chan ch)) by done.
    rewrite (init_chan_eq ch) by done. reflexivity.
Qed.

(** X5.  A store touches one slot only: the bytes, size and flag of every other
    slot, the bytes of the written slot beyond [size] and the identity of
    the channel are as before, and the arrays keep their shape. *)
Theorem store_touches_one_slot ch buf size (j : nat) :
  chan_shape ch ->
  0 <= free_buff_idx ch <= IPC_QUEUE_SIZE ->
  0 <= num_pending_msg ch <= IPC_QUEUE_SIZE ->
  0 <= size <= IPCF_BUF_LEN ->
  size <= Z.of_nat (length buf) ->
  let s := Z.to_nat (free_buff_idx ch mod IPC_QUEUE_SIZE) in
  let ch' := push ch buf size in
  chan_shape ch' /\
  instance_id ch' = instance_id ch /\
  channel_id ch' = channel_id ch /\
  drop (Z.to_nat size) (rd [] (chan_pool ch') (Z.of_nat s))
    = drop (Z.to_nat size) (rd [] (chan_pool ch) (Z.of_nat s)) /\
  (j <> s ->
     chan_pool ch' !! j = chan_pool ch !! j /\
     msg_size ch' !! j = msg_size ch !! j /\
     msg_processed ch' !! j = msg_processed ch !! j).
Proof.
  intros [Hpl Hsl Hzl Hprl] Hf Hp Hsz Hbuf s ch'. subst ch'.
  rewrite push_eq by lia.
  assert (Hs : 0 <= free_buff_idx ch mod IPC_QUEUE_SIZE < IPC_QUEUE_SIZE)
    by (apply Z.mod_pos_bound; lia).
  destruct (lookup_lt_is_Some_2 (chan_pool ch) s) as [slot Hslot];
    [subst s; lia|].
  pose proof (Forall_lookup_1 _ _ _ _ Hsl Hslot) as Hlen. cbn in Hlen.
  unfold rd, wr. subst s. rewrite !Z2Nat.id by lia.
  cbn [chan_pool msg_size msg_processed instance_id channel_id].
  rewrite Hslot, list_lookup_insert_eq by lia. cbn [default].
  split_and!; try reflexivity.
  - split; cbn; rewrite ?length_insert; try done.
    apply Forall_insert; [done|].
    unfold memcpy, id. rewrite length_app, length_take, length_drop. lia.
  - unfold memcpy, id. rewrite drop_app_length'; [reflexivity|].
    rewrite length_take. lia.
  - intros Hj. rewrite !list_lookup_insert_ne by done. done.
Qed.

(** ** Properties of the channel lookup *)

Lemma get_device_idx_from_found descrs : forall i inst_id chan_id,
  0 <= i -> i + Z.of_nat (length descrs) <= 255 ->
  get_device_idx_from descrs i inst_id chan_id <> IPC_INVALID ->
  exists (k : nat) d,
    get_device_idx_from descrs i inst_id chan_id = i + Z.of_nat k /\
    descrs !! k = Some d /\
    instance_id d = inst_id /\ channel_id d = chan_id /\
    forall (j : nat) d', (j < k)%nat -> descrs !! j = Some d' ->
      ~ (instance_id d' = inst_id /\ channel_id d' = chan_id).
Proof.
  clear queue_size_pos queue_size_u32 buf_len_u32.
  induction descrs as [|d descrs IH]; intros i inst_id chan_id Hi Hlen Hr.
  - cbn in Hr. done.
  - cbn [get_device_idx_from] in *. cbn [length] in Hlen.
    assert (Hu : u8 (i + 1) = i + 1) by (apply Z.mod_small; lia).
    rewrite Hu in *.
    assert (Hnext : ~ (instance_id d = inst_id /\ channel_id d = chan_id) ->
              get_device_idx_from descrs (i + 1) inst_id chan_id
                <> IPC_INVALID ->
              exists (k : nat) d0,
                get_device_idx_from descrs (i + 1) inst_id chan_id
                  = i + Z.of_nat k /\
                (d :: descrs) !! k = Some d0 /\
                instance_id d0 = inst_id /\ channel_id d0 = chan_id /\
                forall (j : nat) d', (j < k)%nat ->
                  (d :: descrs) !! j = Some d' ->
                  ~ (instance_id d' = inst_id /\ channel_id d' = chan_id)).
    { intros Hd Hr'.
      destruct (IH (i + 1) inst_id chan_id) as (k & d0 & Hk & Hd0 & H1 & H2 & H3);
        [lia | lia | exact Hr' |].
      exists (S k), d0. split_and!; try done; [lia|].
      intros [|j] d' Hj Hd'; cbn in Hd'; [by simplify_eq|].
      apply (H3 j d'); [lia | exact Hd']. }
    destruct (Z.eqb_spec (instance_id d) inst_id) as [Hinst|Hinst];
      [destruct (Z.eqb_spec (channel_id d) chan_id) as [Hchan|Hchan]|];
      cbn [andb] in *.
    + exists 0%nat, d. split_and!; try done; [lia|]. intros j d' Hj. lia.
    + apply Hnext; [tauto | exact Hr].
    + apply Hnext; [tauto | exact Hr].
Qed.

Lemma get_device_idx_from_invalid descrs : forall i inst_id chan_id,
  0 <= i -> i + Z.of_nat (length descrs) <= 255 ->
  get_device_idx_from descrs i inst_id chan_id = IPC_INVALID <->
  Forall (fun d => ~ (instance_id d = inst_id /\ channel_id d = chan_id))
         descrs.
Proof.
  clear queue_size_pos queue_size_u32 buf_len_u32.
  induction descrs as [|d descrs IH]; intros i inst_id chan_id Hi Hlen.
  - cbn. split; [constructor | reflexivity].
  - cbn [get_device_idx_from]. cbn [length] in Hlen.
    assert (Hu : u8 (i + 1) = i + 1) by (apply Z.mod_small; lia).
    rewrite Hu.
    destruct (Z.eqb_spec (instance_id d) inst_id) as [Hinst|Hinst];
      [destruct (Z.eqb_spec (channel_id d) chan_id) as [Hchan|Hchan]|];
      cbn [andb].
    + unfold IPC_INVALID. split; [lia|].
      intros HF. apply Forall_cons_1 in HF. tauto.
    + rewrite IH by lia. split.
      * intros HF. constructor; [tauto | exact HF].
      * intros HF. apply Forall_cons_1 in HF. tauto.
    + rewrite IH by lia. split.
      * intros HF. constructor; [tauto | exact HF].
      * intros HF. apply Forall_cons_1 in HF. tauto.
Qed.

(** X6.  Resolution of a known pair: with at most 255 channels, an index other
    than [IPC_INVALID] is the position of the first descriptor carrying the
    pair asked for. *)
Theorem resolve_first_match descrs inst_id chan_id :
  Z.of_nat (length descrs) <= 255 ->
  get_device_idx descrs inst_id chan_id <> IPC_INVALID ->
  exists (k : nat) d,
    get_device_idx descrs inst_id chan_id = Z.of_nat k /\
    (k < length descrs)%nat /\
    descrs !! k = Some d /\
    instance_id d = inst_id /\ channel_id d = chan_id /\
    forall (j : nat) d', (j < k)%nat -> descrs !! j = Some d' ->
      ~ (instance_id d' = inst_id /\ channel_id d' = chan_id).
Proof.
  clear queue_size_pos queue_size_u32 buf_len_u32.
  intros Hlen Hr. unfold get_device_idx in *.
  destruct (get_device_idx_from_found descrs 0 inst_id chan_id)
    as (k & d & Hk & Hd & H1 & H2 & H3); [lia | lia | exact Hr |].
  exists k, d. split_and!; try done.
  apply (lookup_lt_Some _ _ _ Hd).
Qed.

(** X7.  Resolution of an unknown pair: with at most 255 channels, the lookup
    answers [IPC_INVALID] exactly when no descriptor carries the pair. *)
Theorem resolve_invalid_iff descrs inst_id chan_id :
  Z.of_nat (length descrs) <= 255 ->
  get_device_idx descrs inst_id chan_id = IPC_INVALID <->
  forall d, d ∈ descrs ->
    ~ (instance_id d = inst_id /\ channel_id d = chan_id).
Proof.
  clear queue_size_pos queue_size_u32 buf_len_u32.
  intros Hlen. unfold get_device_idx.
  rewrite get_device_idx_from_invalid by lia.
  rewrite List.Forall_forall. split; intros H d Hd; apply H;
    apply list_elem_of_In; exact Hd.
Qed.

(** ** Further properties of the dispatcher *)

(** The callback on a message that fits and resolves. *)
Lemma rx_accept w inst_id chan_id buf size ch :
  size <= IPCF_BUF_LEN ->
  get_device_idx (ipc_ch_descr w) inst_id (u8 chan_id) <> IPC_INVALID ->
  ipc_ch_descr w
    !! Z.to_nat (get_device_idx (ipc_ch_descr w) inst_id (u8 chan_id))
    = Some ch ->
  ipc_ch_descr (data_chan_rx_cb inst_id chan_id buf size w).2 =
    <[Z.to_nat (get_device_idx (ipc_ch_descr w) inst_id (u8 chan_id))
      := push ch buf size]> (ipc_ch_descr w).
Proof.
  intros Hsz Hdev Hch. unfold data_chan_rx_cb. unfold_m.
  destruct (Z.leb_spec size IPCF_BUF_LEN); [|lia]. unfold_m.
  destruct (Z.eqb_spec IPC_INVALID
              (get_device_idx (ipc_ch_descr w) inst_id (u8 chan_id)));
    [congruence|].
  rewrite Hch. unfold_m.
  match goal with |- context [?e =? 0] => destruct (e =? 0) end;
    unfold_m; reflexivity.
Qed.

(** X8.  An unknown (instance, channel) pair: a message that fits but resolves
    to no device is logged and released, and no descriptor changes. *)
Theorem rx_unknown_device w inst_id chan_id buf size :
  size <= IPCF_BUF_LEN ->
  get_device_idx (ipc_ch_descr w) inst_id (u8 chan_id) = IPC_INVALID ->
  let w' := (data_chan_rx_cb inst_id chan_id buf size w).2 in
  ipc_ch_descr w' = ipc_ch_descr w /\
  exists rest,
    klog w' = klog w ++ EvPrintk (UnknownDevice inst_id chan_id)
                     :: EvRelease inst_id chan_id buf :: rest.
Proof.
  intros Hsz Hdev w'. subst w'. unfold data_chan_rx_cb. unfold_m.
  destruct (Z.leb_spec size IPCF_BUF_LEN); [|lia]. unfold_m.
  rewrite Hdev. cbn [Z.eqb IPC_INVALID Pos.eqb]. unfold_m.
  match goal with |- context [?e =? 0] => destruct (e =? 0) end;
    unfold_m; rewrite <- ?app_assoc; (split; [reflexivity | eauto]).
Qed.

(** X9.  The callback changes at most the ring it resolves to: the array keeps
    its length and every other descriptor is as before. *)
Theorem rx_touches_one_ring w inst_id chan_id buf size (j : nat) :
  let dev_id := get_device_idx (ipc_ch_descr w) inst_id (u8 chan_id) in
  let w' := (data_chan_rx_cb inst_id chan_id buf size w).2 in
  length (ipc_ch_descr w') = length (ipc_ch_descr w) /\
  (j <> Z.to_nat dev_id -> ipc_ch_descr w' !! j = ipc_ch_descr w !! j).
Proof.
  intros dev_id w'. subst w' dev_id. unfold data_chan_rx_cb. unfold_m.
  destruct (size <=? IPCF_BUF_LEN); unfold_m;
    [set (dev_id := get_device_idx _ _ _); clearbody dev_id;
     destruct (IPC_INVALID =? dev_id); unfold_m;
       [|destruct (ipc_ch_descr w !! Z.to_nat dev_id); unfold_m]|];
    match goal with |- context [?e =? 0] => destruct (e =? 0) end;
    unfold_m; unfold wr; rewrite ?length_insert;
    (split; [reflexivity|]); intros Hj;
    rewrite ?list_lookup_insert_ne by done; reflexivity.
Qed.

(** X10.  The channel identifier is narrowed to [uint8_t] before the lookup: a
    callback for channel [chan_id + 256 * k] leaves the descriptors exactly
    as a callback for channel [chan_id] does. *)
Theorem rx_chan_id_narrowed w inst_id chan_id k buf size :
  ipc_ch_descr (data_chan_rx_cb inst_id (chan_id + 256 * k) buf size w).2 =
  ipc_ch_descr (data_chan_rx_cb inst_id chan_id buf size w).2.
Proof.
  assert (Hu : u8 (chan_id + 256 * k) = u8 chan_id).
  { unfold u8. change (2 ^ 8) with 256.
    rewrite Z.mul_comm. apply Z_mod_plus_full. }
  unfold data_chan_rx_cb. unfold_m. rewrite Hu.
  destruct (size <=? IPCF_BUF_LEN); unfold_m;
    [destruct (IPC_INVALID =? _); unfold_m;
       [|destruct (ipc_ch_descr w !! _); unfold_m]|];
    repeat match goal with
           | |- context [?e =? 0] => destruct (e =? 0)
           end;
    unfold_m; reflexivity.
Qed.

(** ** Further properties of the file operations *)

Lemma get_next_pending_buff_none ch ch' :
  get_next_pending_buff ch = (ch', None) -> ch' = ch.
Proof.
  unfold get_next_pending_buff. intros H.
  repeat case_match; simplify_eq; reflexivity.
Qed.

(** X11.  A read of an empty ring returns zero and no bytes, logs nothing and
    leaves the driver state as it was. *)
Theorem read_empty w minor ch ucap max_length :
  ipc_ch_descr w !! Z.to_nat minor = Some ch ->
  (get_next_pending_buff ch).2 = None ->
  ipcf_read minor ucap max_length w = ((0, []), w).
Proof.
  intros Hch Hnone. unfold ipcf_read. unfold_m. rewrite Hch.
  destruct (get_next_pending_buff ch) as [ch' r] eqn:Hpop.
  cbn [snd] in Hnone. subst r.
  apply get_next_pending_buff_none in Hpop as ->. unfold_m.
  unfold wr. rewrite list_insert_id by done. destruct w; reflexivity.
Qed.



(** X13.  A read changes at most the ring of its own device. *)
Theorem read_touches_one_ring w minor ucap max_length (j : nat) :
  let w' := (ipcf_read minor ucap max_length w).2 in
  length (ipc_ch_descr w') = length (ipc_ch_descr w) /\
  (j <> Z.to_nat minor -> ipc_ch_descr w' !! j = ipc_ch_descr w !! j).
Proof.
  intros w'. subst w'. unfold ipcf_read. unfold_m.
  destruct (ipc_ch_descr w !! Z.to_nat minor) as [ch|]; unfold_m;
    [|split; reflexivity].
  destruct (get_next_pending_buff ch) as [ch' [[idx S]|]]; unfold_m;
    repeat match goal with
           | |- context [if ?b then _ else _] => destruct b; unfold_m
           end;
    unfold wr; rewrite ?length_insert; (split; [reflexivity|]);
    intros Hj; rewrite ?list_lookup_insert_ne by done; reflexivity.
Qed.

(** X14.  The write path never touches a ring: whatever the transport answers,
    the descriptors after [ipcf_write] are those before. *)
Theorem write_leaves_rings w minor ubuf L :
  ipc_ch_descr (ipcf_write minor ubuf L w).2 = ipc_ch_descr w.
Proof.
  unfold ipcf_write. unfold_m.
  destruct (ipc_ch_descr w !! Z.to_nat minor) as [ch|]; unfold_m;
    [|reflexivity].
  repeat match goal with
         | |- context [if ?b then _ else _] => destruct b; unfold_m
         end; reflexivity.
Qed.

(** X15.  The failures of [ipcf_write] after a buffer was acquired: when the
    user memory is shorter than the length to send, the call returns
    [-EFAULT] having neither transmitted nor released the buffer; when the
    transport refuses the transmission, its error code is returned and
    logged. *)
Theorem write_error_paths w minor ch ubuf L :
  ipc_ch_descr w !! Z.to_nat minor = Some ch ->
  let len := Z.min L IPCF_BUF_LEN in
  let inst_id := instance_id ch in
  let chan_id := channel_id ch in
  let data := take (Z.to_nat len) ubuf in
  let r := ipcf_write minor ubuf L w in
  ipc_shm_acquire_buf (klog w) inst_id chan_id len = true ->
  (Z.of_nat (length ubuf) < len ->
   r.1 = - EFAULT /\
   klog r.2 = klog w ++ [EvAcquire inst_id chan_id len;
                         EvPrintk CopyFromUserFailed]) /\
  (len <= Z.of_nat (length ubuf) ->
   forall err,
     ipc_shm_tx (klog w ++ [EvAcquire inst_id chan_id len])
       inst_id chan_id data len = err ->
     err <> 0 ->
     r.1 = err /\
     klog r.2 = klog w ++ [EvAcquire inst_id chan_id len;
                           EvTx inst_id chan_id data len;
                           EvPrintk (TxFailed inst_id chan_id len err)]).
Proof.
  intros Hch len inst_id chan_id data r Hacq. subst r.
  unfold ipcf_write. unfold_m. rewrite Hch.
  assert (Hlen : (if IPCF_BUF_LEN <? L then IPCF_BUF_LEN else L) = len)
    by (subst len; destruct (Z.ltb_spec IPCF_BUF_LEN L); lia).
  rewrite Hlen. fold inst_id chan_id. unfold_m. rewrite Hacq. cbn [negb].
  split.
  - intros Hshort.
    destruct (Z.leb_spec len (Z.of_nat (length ubuf))); [lia|]. cbn [negb].
    unfold_m. rewrite <- app_assoc. split; reflexivity.
  - intros Hcopy err Htx Herr.
    destruct (Z.leb_spec len (Z.of_nat (length ubuf))); [|lia]. cbn [negb].
    unfold_m. fold data. rewrite Htx.
    destruct (Z.eqb_spec err 0); [done|]. cbn [negb]. unfold_m.
    rewrite <- !app_assoc. split; reflexivity.
Qed.

(** ** From the callback to the reader *)

(** X16.  End to end: a message that arrives for a known channel whose ring is
    empty is what the next read of that channel's device returns, byte for
    byte, behind its big-endian length on a length-prefixed channel. *)
Theorem rx_then_read w inst_id chan_id buf ch ucap max_length :
  Z.of_nat (length (ipc_ch_descr w)) <= 255 ->
  let dev_id := get_device_idx (ipc_ch_descr w) inst_id (u8 chan_id) in
  let size := Z.of_nat (length buf) in
  let framed := prepend_size inst_id (u8 chan_id) in
  dev_id <> IPC_INVALID ->
  ipc_ch_descr w !! Z.to_nat dev_id = Some ch ->
  reachable ch ->
  num_pending_msg ch = 0 ->
  size <= IPCF_BUF_LEN ->
  (if framed then 4 else 0) + size <= ucap ->
  (ipcf_read dev_id ucap max_length
     (data_chan_rx_cb inst_id chan_id buf size w).2).1
  = ((if framed then 4 else 0) + size,
     (if framed then be32_encode size else []) ++ buf).
Proof.
  intros Hn dev_id size framed Hdev Hch Hr Hp0 Hsz Hcap.
  destruct (get_device_idx_from_found (ipc_ch_descr w) 0 inst_id (u8 chan_id))
    as (k & d & Hk & Hd & Hinst & Hchan & _); [lia | lia | exact Hdev |].
  fold (get_device_idx (ipc_ch_descr w) inst_id (u8 chan_id)) in Hk.
  fold dev_id in Hk. rewrite Z.add_0_l in Hk.
  assert (d = ch) as -> by (rewrite Hk, Nat2Z.id in Hch; congruence).
  destruct (reachable_inv ch Hr) as (wr0 & hist & Hinv).
  pose proof (inv_pending _ _ _ Hinv) as Hp.
  pose proof (inv_free _ _ _ Hinv) as Hf.
  pose proof (push_inv _ _ _ _ Hinv Hsz) as Hinv1. fold size in Hinv1.
  assert (Hp1 : num_pending_msg (push ch buf size) = 1).
  { rewrite push_eq by lia. cbn [num_pending_msg]. lia. }
  destruct (pop_inv _ _ _ Hinv1) as (ch2 & idx & m & Hpop & _ & _ & Hm & _ & Hb);
    [lia|].
  rewrite Hp1, length_app in Hm. cbn [length] in Hm.
  replace (Z.to_nat (Z.of_nat (length hist + 1) - 1)) with (length hist)
    in Hm by lia.
  rewrite list_lookup_middle in Hm by reflexivity.
  injection Hm as <-. fold size in Hpop, Hb.
  assert (Hb' : slot_bytes (push ch buf size) idx size = buf).
  { unfold slot_bytes in *.
    rewrite <- (get_next_pending_buff_pool _ _ _ Hpop). exact Hb. }
  assert (Hids : instance_id (push ch buf size) = instance_id ch /\
                 channel_id (push ch buf size) = channel_id ch)
    by (rewrite push_eq by lia; split; reflexivity).
  destruct Hids as [Hi1 Hi2].
  assert (Hlook : ipc_ch_descr (data_chan_rx_cb inst_id chan_id buf size w).2
                    !! Z.to_nat dev_id = Some (push ch buf size)).
  { rewrite (rx_accept w inst_id chan_id buf size ch Hsz Hdev Hch).
    fold dev_id. apply list_lookup_insert_eq.
    apply (lookup_lt_Some _ _ _ Hch). }
  rewrite (ipcf_read_pending _ _ _ _ _ _ _ _ Hlook Hpop) by lia.
  rewrite Hi1, Hi2, Hb', Hinst, Hchan. subst framed.
  unfold copy_to_user_ok.
  destruct (prepend_size inst_id (u8 chan_id)).
  - destruct (Z.leb_spec (0 + 4) ucap); [|lia].
    destruct (Z.leb_spec (4 + size) ucap); [|lia]. reflexivity.
  - destruct (Z.leb_spec (0 + size) ucap); [|lia]. reflexivity.
Qed.

End Proofs.

(** ** Loading and unloading the module *)

Section LifecycleProofs.

Context `{cfg : Config} `{K : Kernel}.

Lemma track_app r cs1 cs2 :
  track r (cs1 ++ cs2) =
  match track r cs1 with Some r' => track r' cs2 | None => None end.
Proof.
  revert r. induction cs1 as [|c cs1 IH]; intros r; cbn; [done|].
  destruct (track_call r c); [apply IH | done].
Qed.

Lemma has_elem_spec i l : has_elem i l = true <-> i ∈ l.
Proof.
  unfold has_elem. rewrite existsb_exists. split.
  - intros (x & Hx & Heq). apply Z.eqb_eq in Heq as ->.
    apply list_elem_of_In. exact Hx.
  - intros Hi. exists i. split; [apply list_elem_of_In; exact Hi|].
    apply Z.eqb_refl.
Qed.

Lemma has_elem_seqZ i a n :
  has_elem i (seqZ a n) = (a <=? i) && (i <? a + n).
Proof.
  apply Bool.eq_iff_eq_true. rewrite has_elem_spec, elem_of_seqZ. lia.
Qed.

Lemma drop_elem_notin i l : i ∉ l -> drop_elem i l = l.
Proof.
  induction l as [|x l IH]; intros Hi; [done|]. cbn.
  apply not_elem_of_cons in Hi as [Hx Hl].
  destruct (Z.eqb_spec x i); [congruence|]. cbn. f_equal. apply IH, Hl.
Qed.

Lemma drop_elem_last a n :
  0 <= n -> drop_elem (a + n) (seqZ a (n + 1)) = seqZ a n.
Proof.
  intros Hn. rewrite seqZ_app by lia. unfold drop_elem.
  rewrite List.filter_app. fold (drop_elem (a + n) (seqZ a n)).
  rewrite drop_elem_notin by (rewrite elem_of_seqZ; lia).
  rewrite (seqZ_cons (a + n) 1), (seqZ_nil _ (Z.pred 1)) by lia. cbn.
  rewrite Z.eqb_refl. cbn. apply app_nil_r.
Qed.

Lemma drop_elem_first a n :
  0 < n -> drop_elem a (seqZ a n) = seqZ (a + 1) (n - 1).
Proof.
  intros Hn. rewrite seqZ_cons by lia. cbn. rewrite Z.eqb_refl. cbn.
  fold (drop_elem a (seqZ (Z.succ a) (Z.pred n))).
  rewrite drop_elem_notin by (rewrite elem_of_seqZ; lia).
  f_equal; lia.
Qed.

Lemma seqZ_snoc n : 0 <= n -> seqZ 0 n ++ [n] = seqZ 0 (n + 1).
Proof.
  intros Hn. rewrite (seqZ_app 0 n 1) by lia. reflexivity.
Qed.

Lemma continues_refl st : continues st st [].
Proof. split; [symmetry; apply app_nil_r | done]. Qed.

Lemma continues_trans st st1 st2 n1 n2 :
  continues st st1 n1 -> continues st1 st2 n2 ->
  continues st st2 (n1 ++ n2).
Proof.
  intros [H1 H2] [H3 H4]. split; [|congruence].
  rewrite H3, H1. symmetry. apply app_assoc.
Qed.

Lemma continues_call st c : continues st (kcall_do c st) [c].
Proof. split; reflexivity. Qed.

Lemma track_step r c cs r' :
  track_call r c = Some r' -> track r (c :: cs) = track r' cs.
Proof. intros H. cbn. rewrite H. reflexivity. Qed.

Lemma track_trans r1 r2 r3 cs1 cs2 :
  track r1 cs1 = Some r2 -> track r2 cs2 = Some r3 ->
  track r1 (cs1 ++ cs2) = Some r3.
Proof. intros H1 H2. rewrite track_app, H1. exact H2. Qed.

Lemma has_elem_in i n : 0 <= i < n -> has_elem i (seqZ 0 n) = true.
Proof. intros H. rewrite has_elem_seqZ. lia. Qed.

Lemma has_elem_out i n : n <= i -> has_elem i (seqZ 0 n) = false.
Proof. intros H. rewrite has_elem_seqZ. lia. Qed.

Lemma drop_elem_top n : 0 <= n -> drop_elem n (seqZ 0 (n + 1)) = seqZ 0 n.
Proof. intros H. apply (drop_elem_last 0 n H). Qed.

Ltac track_simpl :=
  unfold holding;
  repeat (progress (cbn [track track_call under_major res_region res_cdevs
                         res_devices app negb orb andb mod_dev_major
                         kcall_do set_mod_descr];
                    rewrite ?Z.eqb_refl;
                    rewrite ?seqZ_snoc by lia;
                    rewrite ?has_elem_in by lia;
                    rewrite ?has_elem_out by lia;
                    rewrite ?drop_elem_top by lia)).

Lemma create_device_spec inst_id ch_id idx st count :
  0 <= idx ->
  let r := create_device inst_id ch_id idx st in
  exists new,
    continues st r.2 new /\
    track (holding (mod_dev_major st) count idx) new
      = Some (holding (mod_dev_major st) count
                (if r.1 then idx + 1 else idx)) /\
    mod_dev_major r.2 = mod_dev_major st /\
    mod_shm_addr r.2 = mod_shm_addr st /\
    mod_descr r.2 =
      wr (mod_descr st) idx
         (set_ids (rd (Build_chan [] [] [] 0 0 0 0) (mod_descr st) idx)
                  (u8 inst_id) (u8 ch_id)) /\
    (r.1 = true -> created_nodes new = [(idx, (inst_id, ch_id))]).
Proof.
  intros Hidx r. subst r. unfold create_device.
  destruct (cdev_add idx =? 0) eqn:Hadd; cbn [negb];
    [destruct (device_create_is_err idx) eqn:Hdev|]; cbn [fst snd].
  - eexists [_; _; _; _; _]. split_and!; try done.
    + split; cbn; unfold wr; rewrite <- ?app_assoc, ?length_insert;
        reflexivity.
    + track_simpl. rewrite Hadd. track_simpl. rewrite Hdev. track_simpl.
      reflexivity.
  - eexists [_; _; _]. split_and!; try done.
    + split; cbn; unfold wr; rewrite <- ?app_assoc, ?length_insert;
        reflexivity.
    + track_simpl. rewrite Hadd. track_simpl. rewrite Hdev. track_simpl.
      reflexivity.
    + intros _. reflexivity.
  - eexists [_; _; _]. split_and!; try done.
    + split; cbn; unfold wr; rewrite <- ?app_assoc, ?length_insert;
        reflexivity.
    + track_simpl. rewrite Hadd. track_simpl. reflexivity.
Qed.

Lemma created_nodes_app cs1 cs2 :
  created_nodes (cs1 ++ cs2) = created_nodes cs1 ++ created_nodes cs2.
Proof. apply omap_app. Qed.

Lemma chan_loop_spec inst_id chs count : forall idx st,
  0 <= idx ->
  let r := chan_loop inst_id chs idx st in
  exists new,
    continues st r.2 new /\
    track (holding (mod_dev_major st) count idx) new
      = Some (holding (mod_dev_major st) count r.1.2) /\
    idx <= r.1.2 /\
    mod_dev_major r.2 = mod_dev_major st /\
    mod_shm_addr r.2 = mod_shm_addr st /\
    (r.1.1 = true ->
       r.1.2 = idx + Z.of_nat (length chs) /\
       created_nodes new =
         zip (seqZ idx (Z.of_nat (length chs)))
             ((fun ch_id => (inst_id, ch_id)) <$> chs) /\
       (r.1.2 <= Z.of_nat (length (mod_descr st)) ->
        take (Z.to_nat r.1.2) (chan_ids <$> mod_descr r.2) =
          take (Z.to_nat idx) (chan_ids <$> mod_descr st)
          ++ ((fun ch_id => (u8 inst_id, u8 ch_id)) <$> chs))).
Proof.
  induction chs as [|ch_id chs IH]; intros idx st Hidx r; subst r.
  - exists []. cbn [chan_loop fst snd length].
    split_and!.
    + apply continues_refl.
    + reflexivity.
    + lia.
    + reflexivity.
    + reflexivity.
    + intros _. split_and!; [lia | reflexivity |].
      intros _. cbn. symmetry. apply app_nil_r.
  - cbn [chan_loop].
    destruct (create_device_spec inst_id ch_id idx st count Hidx)
      as (new1 & Hc1 & Ht1 & Hm1 & Hs1 & Hd1 & Hn1).
    destruct (create_device inst_id ch_id idx st) as [ok st1].
    cbn [fst snd] in *. destruct ok.
    + destruct (IH (idx + 1) st1 ltac:(lia))
        as (new2 & Hc2 & Ht2 & Hi2 & Hm2 & Hs2 & Hok2).
      destruct (chan_loop inst_id chs (idx + 1) st1) as [[ok2 idx2] st2].
      cbn [fst snd] in *. rewrite Hm1 in Ht2. exists (new1 ++ new2).
      split_and!.
      * exact (continues_trans _ _ _ _ _ Hc1 Hc2).
      * exact (track_trans _ _ _ _ _ Ht1 Ht2).
      * lia.
      * congruence.
      * congruence.
      * intros Hok. destruct (Hok2 Hok) as (Hidx2 & Hcn2 & Hids2).
        cbn [length]. split_and!; [lia | |].
        -- rewrite created_nodes_app, Hn1, Hcn2 by done.
           rewrite Nat2Z.inj_succ, (seqZ_cons idx) by lia. cbn.
           rewrite Z.pred_succ. reflexivity.
        -- intros Hlen. pose proof (cont_len _ _ _ Hc1) as Hl1.
           rewrite Hids2 by lia.
           rewrite Hd1. unfold wr. rewrite list_fmap_insert.
           replace (Z.to_nat (idx + 1)) with (S (Z.to_nat idx)) by lia.
           erewrite take_S_r;
             [|apply list_lookup_insert_eq; rewrite length_fmap; lia].
           rewrite take_insert_ge by lia. rewrite <- app_assoc. reflexivity.
    + exists new1. cbn [fst snd].
      split_and!; [done | done | lia | done | done | done].
Qed.

Lemma inst_loop_spec ds count : forall i0 idx st,
  0 <= idx ->
  let r := inst_loop (zip (seqZ i0 (Z.of_nat (length ds))) ds) idx st in
  exists new,
    continues st r.2 new /\
    track (holding (mod_dev_major st) count idx) new
      = Some (holding (mod_dev_major st) count r.1.2) /\
    idx <= r.1.2 /\
    mod_dev_major r.2 = mod_dev_major st /\
    mod_shm_addr r.2 = mod_shm_addr st /\
    (r.1.1 = true ->
       r.1.2 = idx + Z.of_nat (length (flat_ids i0 ds)) /\
       created_nodes new =
         zip (seqZ idx (Z.of_nat (length (flat_ids i0 ds))))
             (flat_ids i0 ds) /\
       (r.1.2 <= Z.of_nat (length (mod_descr st)) ->
        take (Z.to_nat r.1.2) (chan_ids <$> mod_descr r.2) =
          take (Z.to_nat idx) (chan_ids <$> mod_descr st)
          ++ ((fun p => (u8 p.1, u8 p.2)) <$> flat_ids i0 ds))).
Proof.
  induction ds as [|d ds IH]; intros i0 idx st Hidx r; subst r.
  - exists []. cbn [length Z.of_nat inst_loop zip_with fst snd flat_ids].
    rewrite seqZ_nil by lia. cbn [inst_loop zip_with fst snd].
    split_and!.
    + apply continues_refl.
    + reflexivity.
    + lia.
    + reflexivity.
    + reflexivity.
    + intros _. split_and!; [lia | reflexivity |].
      intros _. cbn. symmetry. apply app_nil_r.
  - cbn [length]. rewrite Nat2Z.inj_succ, seqZ_cons, Z.pred_succ by lia.
    cbn [zip_with inst_loop flat_ids].
    destruct (chan_loop_spec i0 (seqZ 0 (channel_count d)) count idx st Hidx)
      as (new1 & Hc1 & Ht1 & Hi1 & Hm1 & Hs1 & Hok1).
    destruct (chan_loop i0 (seqZ 0 (channel_count d)) idx st)
      as [[ok1 idx1] st1].
    cbn [fst snd] in *. destruct ok1.
    + destruct (IH (Z.succ i0) idx1 st1 ltac:(lia))
        as (new2 & Hc2 & Ht2 & Hi2 & Hm2 & Hs2 & Hok2).
      destruct (inst_loop _ idx1 st1) as [[ok2 idx2] st2].
      cbn [fst snd] in *. rewrite Hm1 in Ht2. exists (new1 ++ new2).
      destruct (Hok1 eq_refl) as (Hidx1 & Hcn1 & Hids1).
      pose proof (cont_len _ _ _ Hc1) as Hl1.
      split_and!.
      * exact (continues_trans _ _ _ _ _ Hc1 Hc2).
      * exact (track_trans _ _ _ _ _ Ht1 Ht2).
      * lia.
      * congruence.
      * congruence.
      * intros Hok. destruct (Hok2 Hok) as (Hidx2 & Hcn2 & Hids2).
        change (i0 + 1) with (Z.succ i0).
        rewrite length_app, length_fmap, Nat2Z.inj_add.
        split_and!; [lia | |].
        -- rewrite created_nodes_app, Hcn1, Hcn2.
           rewrite seqZ_app by lia.
           rewrite zip_with_app
             by (rewrite length_fmap, !length_seqZ; lia).
           rewrite <- Hidx1. reflexivity.
        -- intros Hlen. rewrite Hids2 by lia. rewrite Hids1 by lia.
           rewrite fmap_app, <- list_fmap_compose, <- app_assoc.
           reflexivity.
    + exists new1. cbn [fst snd].
      split_and!; [done | done | lia | done | done | done].
Qed.

(** The first loop only probes the device tree. *)
Lemma find_nodes_spec (m : nat) : forall a st,
  0 <= a ->
  exists new,
    Forall (fun c => is_registration c = false) new /\
    (forall r, track r new = Some r) /\
    match find_nodes (seqZ a (Z.of_nat m)) st with
    | inl st' =>
        continues st st' new /\ mod_descr st' = mod_descr st /\
        length (mod_shm_addr st') = length (mod_shm_addr st) /\
        (a + Z.of_nat m <= Z.of_nat (length (mod_shm_addr st)) ->
         take (Z.to_nat (a + Z.of_nat m)) (mod_shm_addr st') =
           take (Z.to_nat a) (mod_shm_addr st)
           ++ (shm_layout <$> seqZ a (Z.of_nat m)))
    | inr (r, st') =>
        continues st st' new /\ mod_descr st' = mod_descr st /\ r < 0
    end.
Proof.
  induction m as [|m IH]; intros a st Ha.
  - exists []. cbn [Z.of_nat]. rewrite seqZ_nil by lia. cbn [find_nodes].
    split_and!; try done; [apply continues_refl|].
    intros _. cbn. rewrite Z.add_0_r. symmetry. apply app_nil_r.
  - rewrite Nat2Z.inj_succ, seqZ_cons, Z.pred_succ by lia.
    cbn [find_nodes].
    destruct (of_find_compatible_node a) eqn:Hnode; cbn [negb].
    2: { exists [KFindNode a; KPrintk (NodeNotFound a)]. split_and!.
         - repeat constructor.
         - reflexivity.
         - split; cbn; rewrite <- ?app_assoc; reflexivity.
         - reflexivity.
         - reflexivity. }
    destruct (of_address_to_resource a) as [err start] eqn:Hres.
    destruct (Z.ltb_spec err 0) as [Herr|Herr].
    { exists [KFindNode a; KAddrToResource a; KPrintk InvalidRegProperty].
      split_and!.
      - repeat constructor.
      - reflexivity.
      - split; cbn; rewrite <- ?app_assoc; reflexivity.
      - reflexivity.
      - exact Herr. }
    match goal with
    | |- context [find_nodes _ ?s] =>
        destruct (IH (Z.succ a) s ltac:(lia)) as (new & Hreg & Htr & Hrest);
        destruct (find_nodes (seqZ (Z.succ a) (Z.of_nat m)) s)
          as [st'|[r st']] eqn:Hfind
    end.
    + destruct Hrest as (Hc & Hd & Hl & Hshm).
      exists ([KFindNode a; KAddrToResource a] ++ new). split_and!.
      * repeat constructor. exact Hreg.
      * intros r. cbn. apply Htr.
      * destruct Hc as [H1 H2]. split; cbn in *;
          rewrite ?H1, <- ?app_assoc; done.
      * exact Hd.
      * rewrite Hl. cbn. unfold wr. apply length_insert.
      * intros Hlen. cbn [mod_shm_addr set_mod_shm_addr kcall_do] in *.
        unfold wr in *. rewrite length_insert in *.
        replace (Z.to_nat (a + Z.succ (Z.of_nat m)))
          with (Z.to_nat (Z.succ a + Z.of_nat m)) by lia.
        rewrite Hshm by lia.
        replace (Z.to_nat (Z.succ a)) with (S (Z.to_nat a)) by lia.
        erewrite take_S_r; [|apply list_lookup_insert_eq; lia].
        rewrite take_insert_ge by lia. rewrite <- app_assoc.
        cbn [fmap list_fmap app]. unfold shm_layout at 2. rewrite Hres.
        reflexivity.
    + destruct Hrest as (Hc & Hd & Hr).
      exists ([KFindNode a; KAddrToResource a] ++ new). split_and!.
      * repeat constructor. exact Hreg.
      * intros r0. cbn. apply Htr.
      * destruct Hc as [H1 H2]. split; cbn in *;
          rewrite ?H1, <- ?app_assoc; done.
      * exact Hd.
      * exact Hr.
Qed.

(** The loop at [free_cdev] gives back the devices and nodes
    [n-1 .. 0]. *)
Lemma teardown_down count (n : nat) : forall st,
  let st' :=
    foldl (fun st i =>
             let st := kcall_do (KCdevDel i) st in
             kcall_do (KDeviceDestroy (mod_dev_major st) i) st)
          st (reverse (seqZ 0 (Z.of_nat n))) in
  exists new,
    continues st st' new /\
    track (holding (mod_dev_major st) count (Z.of_nat n)) new
      = Some (holding (mod_dev_major st) count 0) /\
    mod_dev_major st' = mod_dev_major st /\
    mod_descr st' = mod_descr st.
Proof.
  induction n as [|n IH]; intros st st'; subst st'.
  - exists []. split_and!; [apply continues_refl | done | done | done].
  - rewrite seqZ_S, reverse_snoc. cbn [foldl]. rewrite Z.add_0_l.
    match goal with
    | |- context [foldl _ ?s _] =>
        destruct (IH s) as (new & Hc & Ht & Hm & Hd)
    end.
    exists ([KCdevDel (Z.of_nat n);
             KDeviceDestroy (mod_dev_major st) (Z.of_nat n)] ++ new).
    split_and!.
    + destruct Hc as [H1 H2]. split; cbn in *;
        rewrite ?H1, <- ?app_assoc; done.
    + rewrite Nat2Z.inj_succ. unfold Z.succ. track_simpl. exact Ht.
    + exact Hm.
    + exact Hd.
Qed.

Lemma free_cdev_spec count idx st :
  0 <= idx ->
  exists new,
    continues st (free_cdev idx st).2 new /\
    track (holding (mod_dev_major st) count idx) new
      = Some (Build_resources
                (after_unregister (mod_dev_major st) count MINORMASK)
                [] []) /\
    (free_cdev idx st).1 = - EFAULT /\
    mod_descr (free_cdev idx st).2 = mod_descr st.
Proof.
  intros Hidx. unfold free_cdev, free_chdev_region. cbn [fst snd].
  rewrite <- (Z2Nat.id idx) by lia.
  match goal with
  | |- context [foldl ?f st ?l] =>
      destruct (teardown_down count (Z.to_nat idx) st)
        as (new & Hc & Ht & Hm & Hd);
      cbv zeta in Hc, Ht, Hm, Hd; set (st1 := foldl f st l) in *
  end.
  exists (new ++ [KClassUnregister; KClassDestroy;
                  KUnregisterRegion (mod_dev_major st1) MINORMASK]).
  split_and!.
  - destruct Hc as [H1 H2]. split; cbn in *;
      rewrite ?H1, <- ?app_assoc; done.
  - rewrite track_app, Ht. cbn. rewrite Hm, Z.eqb_refl. reflexivity.
  - reflexivity.
  - exact Hd.
Qed.

(** The loop of [ipcf_module_exit] gives back the devices and nodes
    [a .. a+m-1]. *)
Lemma teardown_up count (m : nat) : forall a st,
  let st' :=
    foldl (fun st i =>
             let st := kcall_do (KCdevDel i) st in
             kcall_do (KDeviceDestroy (mod_dev_major st) i) st)
          st (seqZ a (Z.of_nat m)) in
  exists new,
    continues st st' new /\
    track (Build_resources (Region (mod_dev_major st) count)
             (seqZ a (Z.of_nat m)) (seqZ a (Z.of_nat m)))
          new
      = Some (Build_resources (Region (mod_dev_major st) count) [] []) /\
    mod_dev_major st' = mod_dev_major st /\
    mod_descr st' = mod_descr st.
Proof.
  induction m as [|m IH]; intros a st st'; subst st'.
  - exists []. split_and!; [apply continues_refl | done | done | done].
  - assert (Hin : has_elem a (seqZ a (Z.of_nat (S m))) = true).
    { rewrite has_elem_seqZ.
      destruct (Z.leb_spec a a); [|lia].
      destruct (Z.ltb_spec a (a + Z.of_nat (S m))); [reflexivity | lia]. }
    assert (Hdrop : drop_elem a (seqZ a (Z.of_nat (S m)))
                    = seqZ (Z.succ a) (Z.of_nat m)).
    { rewrite drop_elem_first by lia. f_equal; lia. }
    assert (Hs : seqZ a (Z.of_nat (S m))
                 = a :: seqZ (Z.succ a) (Z.of_nat m)).
    { rewrite seqZ_cons by lia. do 2 f_equal. lia. }
    match goal with
    | |- context [foldl ?f st (seqZ a (Z.of_nat (S m)))] =>
        replace (foldl f st (seqZ a (Z.of_nat (S m))))
          with (foldl f (f st a) (seqZ (Z.succ a) (Z.of_nat m)))
          by (rewrite Hs; reflexivity);
        destruct (IH (Z.succ a) (f st a)) as (new & Hc & Ht & Hm & Hd)
    end.
    exists ([KCdevDel a; KDeviceDestroy (mod_dev_major st) a] ++ new).
    split_and!.
    + destruct Hc as [H1 H2]. split; cbn in *;
        rewrite ?H1, <- ?app_assoc; done.
    + cbn [app track track_call under_major res_region res_cdevs
           res_devices mod_dev_major kcall_do].
      rewrite Hin, Hdrop.
      cbn [track track_call under_major res_region res_cdevs res_devices].
      rewrite Z.eqb_refl, Hin, Hdrop. exact Ht.
    + exact Hm.
    + exact Hd.
Qed.

Lemma created_nodes_nonreg cs :
  Forall (fun c => is_registration c = false) cs -> created_nodes cs = [].
Proof.
  induction 1 as [|c cs Hc _ IH]; [reflexivity|].
  unfold created_nodes in *. cbn [omap list_omap]. rewrite IH.
  destruct c; try reflexivity. discriminate.
Qed.

Lemma init_chan_fields ch :
  chan_ids (init_chan ch) = chan_ids ch /\
  num_pending_msg (init_chan ch) = 0 /\ free_buff_idx (init_chan ch) = 0.
Proof.
  unfold init_chan.
  set (ch0 := set_free_buff_idx (set_num_pending_msg ch 0) 0).
  assert (H0 : chan_ids ch0 = chan_ids ch /\
               num_pending_msg ch0 = 0 /\ free_buff_idx ch0 = 0) by done.
  clearbody ch0. revert ch0 H0.
  induction (seqZ 0 IPC_QUEUE_SIZE) as [|i l IH]; intros ch0 H0; [exact H0|].
  cbn [foldl]. apply IH. exact H0.
Qed.

Lemma module_init_spec st :
  let r := ipcf_module_init st in
  let n := Z.of_nat (length (flat_ids 0 inst_descr)) in
  let count := Z.of_nat (length (mod_descr st)) in
  let major := alloc_chrdev_region.2 in
  exists new rg,
    continues st r.2 new /\
    track no_resources new
      = Some (if r.1 =? 0 then holding major count n
              else Build_resources rg [] []) /\
    (rg = NoRegion \/ rg = after_unregister major count MINORMASK) /\
    (r.1 = 0 ->
       mod_dev_major r.2 = major /\
       Z.land ioread32 M7_0_CORE_ACTIVE = M7_0_CORE_ACTIVE /\
       created_nodes new = zip (seqZ 0 n) (flat_ids 0 inst_descr) /\
       (exists pre, new = pre ++ [KShmInit (mod_shm_addr r.2)]) /\
       (length (mod_shm_addr st) = length inst_descr ->
        mod_shm_addr r.2
          = shm_layout <$> seqZ 0 (Z.of_nat (length inst_descr))) /\
       (n = Z.of_nat (length (mod_descr st)) ->
        chan_ids <$> mod_descr r.2
          = (fun p => (u8 p.1, u8 p.2)) <$> flat_ids 0 inst_descr) /\
       Forall (fun d => num_pending_msg d = 0 /\ free_buff_idx d = 0)
              (mod_descr r.2)) /\
    (Z.land ioread32 M7_0_CORE_ACTIVE <> M7_0_CORE_ACTIVE ->
       r.1 < 0 /\ mod_descr r.2 = mod_descr st /\
       Forall (fun c => is_registration c = false) new).
Proof.
  intros r n count major. subst r n count major. unfold ipcf_module_init.
  destruct (find_nodes_spec (length inst_descr) 0 st ltac:(lia))
    as (new0 & Hreg0 & Htr0 & Hfind).
  destruct (find_nodes _ st) as [st0|[r0 st0]].
  2: { destruct Hfind as (Hc & Hd & Hr). exists new0, NoRegion.
       cbn [fst snd]. split_and!.
       - exact Hc.
       - rewrite Htr0. destruct (Z.eqb_spec r0 0); [lia | done].
       - left. reflexivity.
       - intros ->. lia.
       - intros _. split_and!; done. }
  destruct Hfind as (Hc0 & Hd0 & Hl0 & Hshm0). rewrite <- Hd0.
  destruct ioremap_is_err eqn:Hmap.
  { exists (new0 ++ [KIoremap; KPrintk MapStatusFailed]), NoRegion.
    cbn [fst snd]. split_and!.
    - apply (continues_trans _ _ _ _ _ Hc0).
      split; cbn; rewrite <- ?app_assoc; reflexivity.
    - rewrite track_app, Htr0. reflexivity.
    - left. reflexivity.
    - intros H. discriminate H.
    - intros _. split_and!; [done | reflexivity |].
      apply Forall_app. split; [exact Hreg0 | repeat constructor]. }
  destruct (Z.eqb_spec M7_0_CORE_ACTIVE (Z.land ioread32 M7_0_CORE_ACTIVE))
    as [Hcore|Hcore]; cbn [negb].
  2: { exists (new0 ++ [KIoremap; KIoread32; KIounmap; KPrintk CoreNotStarted]),
         NoRegion.
       cbn [fst snd]. split_and!.
       - apply (continues_trans _ _ _ _ _ Hc0).
         split; cbn; rewrite <- ?app_assoc; reflexivity.
       - rewrite track_app, Htr0. reflexivity.
       - left. reflexivity.
       - intros H. discriminate H.
       - intros _. split_and!; [done | reflexivity |].
         apply Forall_app. split; [exact Hreg0 | repeat constructor]. }
  destruct alloc_chrdev_region as [err major] eqn:Halloc. cbn [snd].
  destruct (Z.eqb_spec err 0) as [->|Herr]; cbn [negb].
  2: { exists (new0 ++ [KIoremap; KIoread32; KIounmap;
                        KAllocRegion (Z.of_nat (length (mod_descr st0)));
                        KPrintk AllocRegionFailed]), NoRegion.
       cbn [fst snd]. split_and!.
       - apply (continues_trans _ _ _ _ _ Hc0).
         split; cbn; rewrite <- ?app_assoc; reflexivity.
       - rewrite track_app, Htr0. cbn. rewrite Halloc. cbn.
         destruct (Z.eqb_spec err 0); [lia | reflexivity].
       - left. reflexivity.
       - intros H. lia.
       - intros H. congruence. }
  destruct class_create eqn:Hclass; cbn [negb].
  2: { exists (new0 ++ [KIoremap; KIoread32; KIounmap;
                        KAllocRegion (Z.of_nat (length (mod_descr st0)));
                        KClassCreate; KPrintk ClassCreateFailed;
                        KUnregisterRegion major MINORMASK]),
         (after_unregister major (Z.of_nat (length (mod_descr st0)))
            MINORMASK).
       unfold free_chdev_region. cbn [fst snd]. split_and!.
       - apply (continues_trans _ _ _ _ _ Hc0).
         split; cbn; rewrite <- ?app_assoc; reflexivity.
       - rewrite track_app, Htr0. cbn. rewrite Halloc. cbn.
         rewrite Z.eqb_refl. reflexivity.
       - right. reflexivity.
       - intros H. discriminate H.
       - intros H. congruence. }
  match goal with
  | |- context [inst_loop _ 0 ?s] => set (spre := s) in *
  end.
  assert (Hpre : continues st spre
            (new0 ++ [KIoremap; KIoread32; KIounmap;
                      KAllocRegion (Z.of_nat (length (mod_descr st0)));
                      KClassCreate]))
    by (apply (continues_trans _ _ _ _ _ Hc0);
        split; cbn; rewrite <- ?app_assoc; reflexivity).
  assert (Hs0 : mod_shm_addr spre = mod_shm_addr st0) by reflexivity.
  assert (Hd0' : mod_descr spre = mod_descr st0) by reflexivity.
  assert (Hm0 : mod_dev_major spre = major) by reflexivity.
  clearbody spre.
  set (count := Z.of_nat (length (mod_descr st0))) in *.
  destruct (inst_loop_spec inst_descr count 0 0 spre ltac:(lia))
    as (new1 & Hc1 & Ht1 & Hi1 & Hm1 & Hs1 & Hok1).
  destruct (inst_loop _ 0 spre) as [[ok idx] st1].
  assert (Htpre : track no_resources
                    (new0 ++ [KIoremap; KIoread32; KIounmap;
                              KAllocRegion count; KClassCreate])
                  = Some (holding major count 0)).
  { rewrite track_app, Htr0. cbn. rewrite Halloc. reflexivity. }
  cbn [fst snd] in *. rewrite Hm0 in Ht1, Hm1. destruct ok; cbn [negb].
  2: { destruct (free_cdev_spec count idx st1 Hi1)
         as (new2 & Hc2 & Ht2 & Hr2 & Hd2).
       rewrite Hm1 in Ht2.
       exists ((new0 ++ [KIoremap; KIoread32; KIounmap;
                         KAllocRegion count; KClassCreate]) ++ new1 ++ new2),
         (after_unregister major count MINORMASK).
       rewrite Hr2. split_and!.
       - exact (continues_trans _ _ _ _ _ Hpre
                  (continues_trans _ _ _ _ _ Hc1 Hc2)).
       - exact (track_trans _ _ _ _ _ Htpre
                  (track_trans _ _ _ _ _ Ht1 Ht2)).
       - right. reflexivity.
       - intros H. discriminate H.
       - intros H. congruence. }
  destruct (Hok1 eq_refl) as (Hidx & Hcn & Hids).
  rewrite Z.add_0_l in Hidx.
  match goal with
  | |- context [free_cdev idx (kcall_do _ ?s)] => set (st2 := s) in *
  end.
  assert (Hc2 : continues st1 st2 [KShmInit (mod_shm_addr st1)]).
  { split; [reflexivity|]. cbn. unfold init_state_vars. apply length_fmap. }
  match goal with
  | |- context [ipc_shm_init ?a =? 0] =>
      destruct (Z.eqb_spec (ipc_shm_init a) 0) as [Hshm|Hshm]
  end; cbn [negb].
  2: { destruct (free_cdev_spec count idx
                   (kcall_do (KPrintk ShmInitFailed) st2) Hi1)
         as (new2 & Hc3 & Ht3 & Hr3 & Hd3).
       change (mod_dev_major (kcall_do (KPrintk ShmInitFailed) st2))
         with (mod_dev_major st1) in Ht3.
       rewrite Hm1 in Ht3.
       exists ((new0 ++ [KIoremap; KIoread32; KIounmap;
                         KAllocRegion count; KClassCreate]) ++ new1
               ++ [KShmInit (mod_shm_addr st1); KPrintk ShmInitFailed]
               ++ new2),
         (after_unregister major count MINORMASK).
       rewrite Hr3. split_and!.
       - apply (continues_trans _ _ _ _ _ Hpre).
         apply (continues_trans _ _ _ _ _ Hc1).
         apply (continues_trans _ st2 _ [_] (_ :: new2) Hc2).
         apply (continues_trans _ _ _ [_] new2 (continues_call _ _) Hc3).
       - apply (track_trans _ _ _ _ _ Htpre).
         apply (track_trans _ _ _ _ _ Ht1). exact Ht3.
       - right. reflexivity.
       - intros H. discriminate H.
       - intros H. congruence. }
  cbn [fst snd].
  exists ((new0 ++ [KIoremap; KIoread32; KIounmap;
                    KAllocRegion count; KClassCreate]) ++ new1
          ++ [KShmInit (mod_shm_addr st1)]), NoRegion.
  split_and!.
  - apply (continues_trans _ _ _ _ _ Hpre).
    exact (continues_trans _ _ _ _ _ Hc1 Hc2).
  - apply (track_trans _ _ _ _ _ Htpre).
    rewrite <- Hidx. change (0 =? 0) with true. cbv iota.
    apply (track_trans _ _ (holding major count idx) _ _ Ht1). reflexivity.
  - left. reflexivity.
  - intros _. split_and!.
    + exact Hm1.
    + symmetry. exact Hcore.
    + rewrite !created_nodes_app, (created_nodes_nonreg _ Hreg0), Hcn.
      cbn. apply app_nil_r.
    + eexists. rewrite !app_assoc. reflexivity.
    + intros Hlen. cbn. rewrite Hs1, Hs0.
      rewrite <- (take_ge (mod_shm_addr st0)
                    (Z.to_nat (0 + Z.of_nat (length inst_descr)))) by lia.
      rewrite Hshm0 by lia. reflexivity.
    + intros Hn. cbn [st2 kcall_do set_mod_descr mod_descr].
      unfold init_state_vars. rewrite <- list_fmap_compose.
      rewrite (list_fmap_ext (chan_ids ∘ init_chan) chan_ids (mod_descr st1))
        by (intros; apply init_chan_fields).
      pose proof (cont_len _ _ _ Hc1) as Hl1.
      rewrite Hd0' in Hl1, Hids.
      rewrite <- (take_ge (chan_ids <$> mod_descr st1) (Z.to_nat idx))
        by (rewrite length_fmap; lia).
      rewrite Hids by lia. reflexivity.
    + cbn [st2 kcall_do set_mod_descr mod_descr]. unfold init_state_vars.
      apply Forall_fmap, Forall_true. intros d. cbn.
      apply init_chan_fields.
  - intros H. congruence.
Qed.

Lemma module_exit_spec count st :
  exists new,
    continues st (ipcf_module_exit st) (new ++ [KShmFree]) /\
    track (holding (mod_dev_major st) count
             (Z.of_nat (length (mod_descr st))))
          (new ++ [KShmFree])
      = Some (Build_resources
                (after_unregister (mod_dev_major st) count MINORMASK)
                [] []) /\
    mod_descr (ipcf_module_exit st) = mod_descr st.
Proof.
  unfold ipcf_module_exit.
  match goal with
  | |- context [foldl ?f st ?l] =>
      destruct (teardown_up count (length (mod_descr st)) 0 st)
        as (new & Hc & Ht & Hm & Hd);
      cbv zeta in Hc, Ht, Hm, Hd; set (st1 := foldl f st l) in *
  end.
  exists (new ++ [KUnregisterRegion (mod_dev_major st1) MINORMASK;
                  KClassUnregister; KClassDestroy]).
  split_and!.
  - destruct Hc as [H1 H2]. split; cbn in *;
      rewrite ?H1, <- ?app_assoc; done.
  - unfold holding. rewrite <- app_assoc, track_app, Ht. cbn.
    rewrite Hm, Z.eqb_refl. reflexivity.
  - exact Hd.
Qed.

Lemma flat_ids_bounds ds : forall i0,
  0 <= i0 -> i0 + Z.of_nat (length ds) <= 256 ->
  Forall (fun d => channel_count d <= 256) ds ->
  Forall (fun p : Z * Z => 0 <= p.1 < 256 /\ 0 <= p.2 < 256 /\ i0 <= p.1)
         (flat_ids i0 ds).
Proof.
  induction ds as [|d ds IH]; intros i0 Hi Hlen Hcc; [constructor|].
  cbn [flat_ids length] in *. apply Forall_cons_1 in Hcc as [Hd Hcc].
  apply Forall_app. split.
  - apply Forall_fmap, List.Forall_forall. intros c Hc.
    apply list_elem_of_In, elem_of_seqZ in Hc. cbn. lia.
  - specialize (IH (i0 + 1) ltac:(lia) ltac:(lia) Hcc).
    revert IH. apply List.Forall_impl. intros p. lia.
Qed.

Lemma flat_ids_NoDup ds : forall i0, NoDup (flat_ids i0 ds).
Proof.
  induction ds as [|d ds IH]; intros i0; [constructor|].
  cbn [flat_ids]. apply list.NoDup_app. split_and!.
  - apply NoDup_fmap_2; [|apply NoDup_seqZ]. intros x y H. congruence.
  - intros p Hp Hq. apply list_elem_of_fmap in Hp as (c & -> & _).
    clear IH. assert (Hj : i0 < i0 + 1) by lia.
    revert Hj Hq. generalize (i0 + 1).
    induction ds as [|d' ds IH]; intros j Hj Hq.
    + cbn in Hq. by apply elem_of_nil in Hq.
    + cbn [flat_ids] in Hq. apply elem_of_app in Hq as [Hq|Hq].
      * apply list_elem_of_fmap in Hq as (c' & Heq & _).
        injection Heq as Heq _. lia.
      * apply (IH (j + 1)); [lia | exact Hq].
  - apply IH.
Qed.

Lemma flat_ids_narrow :
  Z.of_nat (length inst_descr) <= 256 ->
  Forall (fun d => channel_count d <= 256) inst_descr ->
  (fun p : Z * Z => (u8 p.1, u8 p.2)) <$> flat_ids 0 inst_descr
  = flat_ids 0 inst_descr.
Proof.
  intros Hn Hcc. rewrite <- (list_fmap_id (flat_ids 0 inst_descr)) at 2.
  apply Forall_fmap_ext_1.
  assert (Hb := flat_ids_bounds inst_descr 0).
  specialize (Hb ltac:(lia)). rewrite Z.add_0_l in Hb.
  specialize (Hb Hn Hcc). revert Hb. apply List.Forall_impl. intros [i c] (Hi & Hc & _).
  cbn in *. unfold u8. change (2 ^ 8) with 256.
  rewrite !Z.mod_small by lia. reflexivity.
Qed.

(** X17.  What a load holds when it returns: the kernel calls of
    [ipcf_module_init] never take a region, character device or device
    node twice, never give back one that is not held, and name every
    device number under the major the region was allocated with.  When
    the function returns zero the module holds the region, allocated for
    as many minors as [ipc_ch_descr] has entries, and the devices and
    nodes of all configured channels.  When it returns anything else it
    holds no character device and no device node, and the region either
    was never obtained or was named by one [unregister_chrdev_region]
    under its major for [MINORMASK] minors, which matches the allocation
    only if that is the number of entries. *)
Theorem module_init_held_resources st :
  let r := ipcf_module_init st in
  let major := alloc_chrdev_region.2 in
  let count := Z.of_nat (length (mod_descr st)) in
  exists new rg,
    mod_calls r.2 = mod_calls st ++ new /\
    track no_resources new
      = Some (if r.1 =? 0
              then holding major count
                     (Z.of_nat (length (flat_ids 0 inst_descr)))
              else Build_resources rg [] []) /\
    (rg = NoRegion \/ rg = after_unregister major count MINORMASK).
Proof.
  intros r major count.
  destruct (module_init_spec st) as (new & rg & Hc & Ht & Hrg & _).
  exists new, rg. split_and!; [apply (cont_calls _ _ _ Hc) | exact Ht |].
  exact Hrg.
Qed.

(** X18.  What is left after unloading: when [ipc_ch_descr] has one entry
    per configured channel, the calls of a successful [ipcf_module_init]
    followed by those of [ipcf_module_exit] delete every character device
    and destroy every device node once, each node under the major and
    minor it was created with; the region is named by one
    [unregister_chrdev_region] under its major for [MINORMASK] minors,
    which matches the allocation only if that is the number of entries;
    and the transport is freed last. *)
Theorem module_exit_held_resources st st' :
  ipcf_module_init st = (0, st') ->
  length (flat_ids 0 inst_descr) = length (mod_descr st) ->
  let major := alloc_chrdev_region.2 in
  let count := Z.of_nat (length (mod_descr st)) in
  exists new1 new2,
    mod_calls st' = mod_calls st ++ new1 /\
    mod_calls (ipcf_module_exit st') = mod_calls st' ++ new2 ++ [KShmFree] /\
    track no_resources (new1 ++ new2 ++ [KShmFree])
      = Some (Build_resources (after_unregister major count MINORMASK)
                              [] []).
Proof.
  intros Hinit Hlen major count. subst major count.
  destruct (module_init_spec st) as (new1 & rg & Hc1 & Ht1 & _ & Hok & _).
  rewrite Hinit in Hc1, Ht1, Hok. cbn [fst snd] in Hc1, Ht1, Hok.
  change (0 =? 0) with true in Ht1. cbv iota in Ht1.
  destruct (Hok eq_refl) as (Hm & _).
  destruct (module_exit_spec (Z.of_nat (length (mod_descr st))) st')
    as (new2 & Hc2 & Ht2 & _).
  exists new1, new2. split_and!.
  - apply (cont_calls _ _ _ Hc1).
  - apply (cont_calls _ _ _ Hc2).
  - apply (track_trans _ _ _ _ _ Ht1).
    rewrite Hm, (cont_len _ _ _ Hc1) in Ht2. rewrite Hlen. exact Ht2.
Qed.

(** X19.  A successful load sets up the channel table: the descriptors carry
    the (instance, channel) pairs of [inst_descr] in order, a device node
    was asked for each pair under the minor equal to its index, and every
    ring starts empty. *)
Theorem module_init_registry st st' :
  ipcf_module_init st = (0, st') ->
  length (flat_ids 0 inst_descr) = length (mod_descr st) ->
  Z.of_nat (length inst_descr) <= 256 ->
  Forall (fun d => channel_count d <= 256) inst_descr ->
  chan_ids <$> mod_descr st' = flat_ids 0 inst_descr /\
  (exists new,
     mod_calls st' = mod_calls st ++ new /\
     created_nodes new
       = zip (seqZ 0 (Z.of_nat (length (mod_descr st))))
             (flat_ids 0 inst_descr)) /\
  Forall (fun d => num_pending_msg d = 0 /\ free_buff_idx d = 0)
         (mod_descr st').
Proof.
  intros Hinit Hlen Hn Hcc.
  destruct (module_init_spec st) as (new & rg & Hc & _ & _ & Hok & _).
  rewrite Hinit in Hc, Hok. cbn [fst snd] in Hc, Hok.
  destruct (Hok eq_refl) as (_ & _ & Hcn & _ & _ & Hids & Hreset).
  split_and!.
  - rewrite Hids by lia. apply flat_ids_narrow; assumption.
  - exists new. split; [apply (cont_calls _ _ _ Hc)|].
    rewrite <- Hlen. exact Hcn.
  - exact Hreset.
Qed.

(** X20.  Lookup after load: with at most 255 channels, [get_device_idx] on the
    table a successful load leaves maps every configured (instance,
    channel) pair to its position, which is the minor of its device. *)
Theorem module_init_lookup st st' (k : nat) inst_id chan_id :
  ipcf_module_init st = (0, st') ->
  length (flat_ids 0 inst_descr) = length (mod_descr st) ->
  Z.of_nat (length (mod_descr st)) <= 255 ->
  Z.of_nat (length inst_descr) <= 256 ->
  Forall (fun d => channel_count d <= 256) inst_descr ->
  flat_ids 0 inst_descr !! k = Some (inst_id, chan_id) ->
  get_device_idx (mod_descr st') inst_id chan_id = Z.of_nat k.
Proof.
  intros Hinit Hlen H255 Hn Hcc Hk.
  destruct (module_init_spec st) as (new & rg & Hc & _ & _ & Hok & _).
  rewrite Hinit in Hc, Hok. cbn [fst snd] in Hc, Hok.
  destruct (Hok eq_refl) as (_ & _ & _ & _ & _ & Hids & _).
  rewrite flat_ids_narrow in Hids by assumption.
  specialize (Hids ltac:(lia)).
  pose proof (cont_len _ _ _ Hc) as Hl.
  assert (Hdk : exists d, mod_descr st' !! k = Some d /\
                          chan_ids d = (inst_id, chan_id)).
  { rewrite <- Hids, list_lookup_fmap in Hk.
    destruct (mod_descr st' !! k) as [d|]; [|discriminate].
    exists d. split; [reflexivity|]. cbn in Hk. congruence. }
  destruct Hdk as (d & Hd & Hdi).
  assert (Hfound : get_device_idx (mod_descr st') inst_id chan_id
                   <> IPC_INVALID).
  { unfold get_device_idx. intros Hinv.
    apply get_device_idx_from_invalid in Hinv; [|lia|lia].
    pose proof (Forall_lookup_1 _ _ _ _ Hinv Hd) as Hno. cbn in Hno.
    apply Hno. unfold chan_ids in Hdi. split; congruence. }
  unfold get_device_idx in *.
  destruct (get_device_idx_from_found (mod_descr st') 0 inst_id chan_id)
    as (k' & d' & Hk' & Hd' & Hi' & Hc' & _); [lia | lia | exact Hfound |].
  rewrite Hk', Z.add_0_l. f_equal.
  eapply (NoDup_lookup (flat_ids 0 inst_descr)); [apply flat_ids_NoDup| |].
  - rewrite <- Hids, list_lookup_fmap, Hd'. cbn. unfold chan_ids.
    rewrite Hi', Hc'. reflexivity.
  - exact Hk.
Qed.

(** X21.  The remote core is down: when the status register read at load time
    lacks the active bit, [ipcf_module_init] returns a negative code,
    leaves the channel descriptors alone and has registered nothing: no
    region, class, character device, device node or transport. *)
Theorem module_init_core_down st :
  Z.land ioread32 M7_0_CORE_ACTIVE <> M7_0_CORE_ACTIVE ->
  let r := ipcf_module_init st in
  r.1 < 0 /\
  mod_descr r.2 = mod_descr st /\
  exists new,
    mod_calls r.2 = mod_calls st ++ new /\
    Forall (fun c => is_registration c = false) new.
Proof.
  intros Hcore r.
  destruct (module_init_spec st) as (new & rg & Hc & _ & _ & _ & Hdown).
  destruct (Hdown Hcore) as (Hr & Hd & Hreg).
  split_and!; [exact Hr | exact Hd |].
  exists new. split; [apply (cont_calls _ _ _ Hc) | exact Hreg].
Qed.

(** X22.  The shared-memory layout handed to the transport: on a successful
    load every instance has its remote address from the device tree and
    its local address [IPC_SHM_SIZE] behind it, and [ipc_shm_init] is the
    last call, made with these addresses. *)
Theorem module_init_shm_layout st st' :
  ipcf_module_init st = (0, st') ->
  length (mod_shm_addr st) = length inst_descr ->
  mod_shm_addr st'
    = shm_layout <$> seqZ 0 (Z.of_nat (length inst_descr)) /\
  exists pre,
    mod_calls st' = mod_calls st ++ pre ++ [KShmInit (mod_shm_addr st')].
Proof.
  intros Hinit Hlen.
  destruct (module_init_spec st) as (new & rg & Hc & _ & _ & Hok & _).
  rewrite Hinit in Hc, Hok. cbn [fst snd] in Hc, Hok.
  destruct (Hok eq_refl) as (_ & _ & _ & (pre & ->) & Hshm & _).
  split; [apply Hshm, Hlen|].
  exists pre. apply (cont_calls _ _ _ Hc).
Qed.

End LifecycleProofs.

(** ** The properties on sample inputs *)

Ltac cfg_arith :=
  vm_compute; repeat split; first [reflexivity | discriminate].

Ltac shape_ok :=
  split; unfold default_cfg, scenario_cfg; cbn;
  [reflexivity | repeat constructor | reflexivity | reflexivity].

(** C1 on the specification's scenario: capacity 2, A, B, C stored without
    a pop; three pops yield B, C and then nothing. *)
Lemma capacity_bound_witness :
  pops (cfg:=scenario_cfg) 3
    (run (cfg:=scenario_cfg) (Push <$> [msg_A; msg_B; msg_C])
       (init_chan (cfg:=scenario_cfg) (zero_chan (cfg:=scenario_cfg) 0 0))).1
  = [Some msg_B; Some msg_C; None].
Proof.
  refine (proj1 (capacity_bound (cfg:=scenario_cfg) _ _ _
                   (zero_chan (cfg:=scenario_cfg) 0 0)
                   [msg_A; msg_B; msg_C] 1 3 _ _ _ _)).
  - cfg_arith.
  - cfg_arith.
  - cfg_arith.
  - shape_ok.
  - lia.
  - reflexivity.
  - repeat constructor; cfg_arith.
Defined.

(** C2 on the specification's interleaved scenario: two stores, a pop, a
    third store and three pops deliver pushes 0, 1 and 2, each once. *)
Lemma no_double_delivery_witness :
  let ops := [Push msg_A; Push msg_B; Pop; Push msg_C; Pop; Pop; Pop] in
  let t0 := Build_traced
              (init_chan (cfg:=scenario_cfg) (zero_chan (cfg:=scenario_cfg) 0 0))
              (replicate 2 0) 0 in
  (trun (cfg:=scenario_cfg) ops t0).2 = [(0, msg_A); (1, msg_B); (2, msg_C)] /\
  NoDup (trun (cfg:=scenario_cfg) ops t0).2.*1.
Proof.
  intros ops t0. split; [reflexivity|].
  refine (proj1 (no_double_delivery (cfg:=scenario_cfg) _ _ _
                   (zero_chan (cfg:=scenario_cfg) 0 0) ops _ _)).
  - cfg_arith.
  - cfg_arith.
  - cfg_arith.
  - shape_ok.
  - repeat constructor; cfg_arith.
Defined.

(** C3 on the full scenario ring: both slots are pending and unprocessed. *)
Lemma ring_invariant_witness :
  num_pending_msg full_ring = 2 /\
  msg_processed full_ring = [false; false] /\
  forall i, 0 <= i < 2 ->
    msg_processed full_ring !! Z.to_nat i
    = Some (negb (slot_pending (cfg:=scenario_cfg) full_ring i)).
Proof.
  split; [reflexivity|]. split; [reflexivity|].
  refine (proj2 (ring_invariant (cfg:=scenario_cfg) _ _ _ full_ring _)).
  - cfg_arith.
  - cfg_arith.
  - cfg_arith.
  - exists (zero_chan (cfg:=scenario_cfg) 0 0), [Push msg_A; Push msg_B].
    split; [shape_ok|]. split; [|reflexivity].
    repeat constructor; cfg_arith.
Defined.

(** C4 on the full scenario ring: storing C overwrites slot 0, the oldest
    pending slot, and the pending count stays at 2. *)
Lemma push_contract_witness :
  push_claim (cfg:=scenario_cfg) full_ring msg_C 1 /\
  pending_idx (cfg:=scenario_cfg) full_ring = 0 /\
  chan_pool (push (cfg:=scenario_cfg) full_ring msg_C 1) !! 0%nat
    = Some [67; 0; 0; 0; 0; 0; 0; 0].
Proof.
  split; [|split; reflexivity].
  refine (push_contract (cfg:=scenario_cfg) _ _ _ full_ring msg_C 1 _ _ _).
  - cfg_arith.
  - cfg_arith.
  - cfg_arith.
  - exists (zero_chan (cfg:=scenario_cfg) 0 0), [Push msg_A; Push msg_B].
    split; [shape_ok|]. split; [|reflexivity].
    repeat constructor; cfg_arith.
  - cfg_arith.
  - cfg_arith.
Defined.

(** C8 on the reset ring, and on a descriptor that counts one pending
    message while the slot it points at is already marked processed. *)
Lemma empty_drain_witness :
  let reset := init_chan (cfg:=scenario_cfg) (zero_chan (cfg:=scenario_cfg) 0 0) in
  let stale := set_num_pending_msg reset 1 in
  run (cfg:=scenario_cfg) (replicate 3 Pop) reset
    = (reset, [None; None; None]) /\
  run (cfg:=scenario_cfg) (replicate 3 Pop) stale
    = (stale, [None; None; None]).
Proof.
  intros reset stale. split.
  - refine (empty_drain (cfg:=scenario_cfg) reset 3 _).
    left. reflexivity.
  - refine (empty_drain (cfg:=scenario_cfg) stale 3 _).
    right. reflexivity.
Defined.

(** C5 on the length-prefixed channel idps_statistics (instance 0,
    channel 1) holding the message 1, 2, 3: the read returns seven bytes,
    the prefix 0, 0, 0, 3 and the payload. *)
Lemma framing_round_trip_witness :
  let w := world_after_rx (cfg:=scenario_cfg) 1 in
  let r := (ipcf_read (cfg:=scenario_cfg) 1 64 64 w).1 in
  r = (7, [0; 0; 0; 3; 1; 2; 3]) /\
  be32_decode (take 4 r.2) = 3 /\
  drop 4 r.2 = [1; 2; 3].
Proof.
  intros w r. split; [reflexivity|].
  pose (ch := default (zero_chan (cfg:=scenario_cfg) 0 1)
                (ipc_ch_descr w !! 1%nat)).
  pose (ch' := (get_next_pending_buff (cfg:=scenario_cfg) ch).1).
  assert (Hthm := framing_round_trip (cfg:=scenario_cfg)
                    ltac:(cfg_arith) w 1 ch ch' 0 3 64 64
                    eq_refl eq_refl ltac:(cfg_arith) ltac:(cfg_arith)
                    ltac:(cfg_arith)).
  assert (Hp : prepend_size (cfg:=scenario_cfg) (instance_id ch)
                 (channel_id ch) = true) by reflexivity.
  rewrite Hp in Hthm. destruct Hthm as (_ & _ & _ & Hd & Hdrop).
  split; [exact Hd | exact Hdrop].
Defined.

(** C10 on the same channel: a read asking for one byte is the read asking
    for none, and delivers all seven. *)
Lemma read_ignores_max_length_witness :
  let w := world_after_rx (cfg:=scenario_cfg) 1 in
  let r := ipcf_read (cfg:=scenario_cfg) 1 64 1 w in
  r = ipcf_read (cfg:=scenario_cfg) 1 64 0 w /\
  r.1.1 = 7 /\
  Z.of_nat (length r.1.2) = 7.
Proof.
  intros w r.
  pose (ch := default (zero_chan (cfg:=scenario_cfg) 0 1)
                (ipc_ch_descr w !! 1%nat)).
  pose (ch' := (get_next_pending_buff (cfg:=scenario_cfg) ch).1).
  destruct (read_ignores_max_length (cfg:=scenario_cfg) w 1 ch ch' 0 3 64 1
              eq_refl eq_refl ltac:(cfg_arith) ltac:(cfg_arith)
              ltac:(cfg_arith)) as (Hany & Hret & Hlen).
  split; [exact (Hany 0) | split; [exact Hret | exact Hlen]].
Defined.

(** C9 on the default configuration: 200 bytes are cut to 128 and 128 is
    returned; with no transport buffer the call returns [-ENOMEM]. *)
Lemma write_contract_witness :
  ipcf_write (cfg:=default_cfg) (T:=good_transport) 0 (replicate 200 7) 200
    (boot_world (cfg:=default_cfg))
  = (128, Build_world (ipc_ch_descr (boot_world (cfg:=default_cfg)))
            [EvAcquire 0 0 128; EvTx 0 0 (replicate 128 7) 128]) /\
  (ipcf_write (cfg:=default_cfg) (T:=exhausted_transport) 0 (replicate 200 7)
     200 (boot_world (cfg:=default_cfg))).1 = - ENOMEM.
Proof.
  split; [vm_compute; reflexivity|].
  pose (ch := init_chan (cfg:=default_cfg) (zero_chan (cfg:=default_cfg) 0 0)).
  refine (proj1 (proj2 (write_contract (cfg:=default_cfg)
                          (T:=exhausted_transport) _
                          (boot_world (cfg:=default_cfg)) 0 ch
                          (replicate 200 7) 200 _ _) _)).
  - cfg_arith.
  - vm_compute; reflexivity.
  - lia.
  - vm_compute; reflexivity.
Defined.


(** ** Where the specification and the driver part *)

(** C3 as worded fails on the full ring: after 64 stores with the default
    queue size the two ends of the range coincide at 0, so slot 0 lies
    outside the half-open range, yet it is pending and unprocessed.  No
    reading of a range by its two ends can succeed: the reset ring has the
    same ends and every slot processed. *)
Lemma pending_range_counterexample :
  (reachable (cfg:=default_cfg) full_default /\
   num_pending_msg full_default = 64 /\
   range_lo (cfg:=default_cfg) full_default = 0 /\
   range_hi (cfg:=default_cfg) full_default = 0 /\
   in_half_open 0 0 0 = false /\
   msg_processed full_default !! 0%nat = Some false) /\
  ~ (exists R : Z -> Z -> Z -> bool,
       forall ch, reachable (cfg:=default_cfg) ch ->
       forall i, 0 <= i < 64 ->
         msg_processed ch !! Z.to_nat i
         = Some (negb (R (range_lo (cfg:=default_cfg) ch)
                         (range_hi (cfg:=default_cfg) ch) i))).
Proof.
  assert (Hshape : chan_shape (cfg:=default_cfg)
                     (zero_chan (cfg:=default_cfg) 0 0)).
  { split; vm_compute; try reflexivity. repeat constructor. }
  assert (Hfull : reachable (cfg:=default_cfg) full_default).
  { exists (zero_chan (cfg:=default_cfg) 0 0), (Push <$> replicate 64 msg_A).
    split; [exact Hshape|]. split; [|reflexivity].
    apply Forall_fmap, Forall_replicate. cfg_arith. }
  assert (Hreset : reachable (cfg:=default_cfg)
            (init_chan (cfg:=default_cfg) (zero_chan (cfg:=default_cfg) 0 0))).
  { exists (zero_chan (cfg:=default_cfg) 0 0), [].
    split; [exact Hshape|]. split; [constructor | vm_compute; reflexivity]. }
  split; [split; [exact Hfull | split_and!; vm_compute; reflexivity]|].
  intros [R HR].
  pose proof (HR _ Hfull 0 ltac:(lia)) as H1.
  pose proof (HR _ Hreset 0 ltac:(lia)) as H2.
  vm_compute in H1, H2. destruct (R 0 0 0); discriminate.
Qed.


(** ** Instances of the further properties *)

Ltac full_ring_reachable :=
  exists (zero_chan (cfg:=scenario_cfg) 0 0), [Push msg_A; Push msg_B];
  split; [shape_ok|]; split; [|reflexivity];
  repeat constructor; cfg_arith.

(** Two stores, a pop and a third store never overflow the scenario ring:
    draining it yields A, B and C. *)
Lemma fifo_lossless_witness :
  delivered
    (run (cfg:=scenario_cfg)
       ([Push msg_A; Push msg_B; Pop; Push msg_C] ++ replicate 2 Pop)
       (init_chan (cfg:=scenario_cfg) (zero_chan (cfg:=scenario_cfg) 0 0))).2
  = [msg_A; msg_B; msg_C].
Proof.
  refine (fifo_lossless (cfg:=scenario_cfg) _ _ _
            (zero_chan (cfg:=scenario_cfg) 0 0)
            [Push msg_A; Push msg_B; Pop; Push msg_C] _ _ _).
  - cfg_arith.
  - cfg_arith.
  - cfg_arith.
  - shape_ok.
  - repeat constructor; cfg_arith.
  - reflexivity.
Defined.

(** Three pops of the full scenario ring: two messages, then nothing. *)
Lemma pending_count_exact_witness :
  exists msgs,
    length msgs = 2%nat /\
    pops (cfg:=scenario_cfg) 3 full_ring = (Some <$> msgs) ++ [None].
Proof.
  refine (pending_count_exact (cfg:=scenario_cfg) _ _ _ full_ring 3 _).
  - cfg_arith.
  - cfg_arith.
  - cfg_arith.
  - full_ring_reachable.
Defined.

(** The indices the full scenario ring hands out lie inside it. *)
Lemma ring_memory_safety_witness :
  0 <= (get_next_free_buff (cfg:=scenario_cfg) full_ring 1).2 < 2 /\
  0 <= pending_idx (cfg:=scenario_cfg) full_ring < 2.
Proof.
  destruct (ring_memory_safety (cfg:=scenario_cfg) ltac:(cfg_arith)
              ltac:(cfg_arith) ltac:(cfg_arith) full_ring 1
              ltac:(full_ring_reachable)) as (H1 & H2 & _).
  split; [exact H1 | exact H2].
Defined.

(** Resetting the full scenario ring and a fresh one: both are empty
    afterwards. *)
Lemma reset_discards_pending_witness :
  let descrs := [full_ring; zero_chan (cfg:=scenario_cfg) 0 1] in
  init_state_vars (cfg:=scenario_cfg) (init_state_vars (cfg:=scenario_cfg) descrs)
  = init_state_vars (cfg:=scenario_cfg) descrs.
Proof.
  intros descrs.
  refine (proj2 (proj2 (reset_discards_pending (cfg:=scenario_cfg) _ _ _
                          descrs 2 _))).
  - cfg_arith.
  - cfg_arith.
  - cfg_arith.
  - constructor; [|constructor; [shape_ok|constructor]].
    split; vm_compute;
      [reflexivity | repeat constructor | reflexivity | reflexivity].
Defined.

(** Storing C in the full scenario ring writes slot 0 and leaves slot 1,
    which holds B, as it was. *)
Lemma store_touches_one_slot_witness :
  chan_pool (push (cfg:=scenario_cfg) full_ring msg_C 1) !! 1%nat
  = chan_pool full_ring !! 1%nat.
Proof.
  refine (proj1 (proj2 (proj2 (proj2 (proj2
            (store_touches_one_slot (cfg:=scenario_cfg) _ _ _
               full_ring msg_C 1 1 _ _ _ _ _)))) _)).
  - cfg_arith.
  - cfg_arith.
  - cfg_arith.
  - split; vm_compute; [reflexivity | repeat constructor | reflexivity
                        | reflexivity].
  - cfg_arith.
  - cfg_arith.
  - cfg_arith.
  - cfg_arith.
  - vm_compute. discriminate.
Defined.

(** Channel 1 of instance 0 resolves to a descriptor of the boot state. *)
Lemma resolve_first_match_witness :
  exists (k : nat) d,
    get_device_idx (ipc_ch_descr (boot_world (cfg:=scenario_cfg))) 0 1
      = Z.of_nat k /\
    (k < 2)%nat /\
    ipc_ch_descr (boot_world (cfg:=scenario_cfg)) !! k = Some d /\
    instance_id d = 0 /\ channel_id d = 1.
Proof.
  destruct (resolve_first_match
              (ipc_ch_descr (boot_world (cfg:=scenario_cfg))) 0 1
              ltac:(cfg_arith) ltac:(cfg_arith))
    as (k & d & H1 & H2 & H3 & H4 & H5 & _).
  exists k, d. split_and!; assumption.
Defined.

(** Channel 7 of instance 0 is unknown to the boot state. *)
Lemma resolve_invalid_iff_witness :
  get_device_idx (ipc_ch_descr (boot_world (cfg:=scenario_cfg))) 0 7
    = IPC_INVALID <->
  forall d, d ∈ ipc_ch_descr (boot_world (cfg:=scenario_cfg)) ->
    ~ (instance_id d = 0 /\ channel_id d = 7).
Proof.
  refine (resolve_invalid_iff
            (ipc_ch_descr (boot_world (cfg:=scenario_cfg))) 0 7 _).
  cfg_arith.
Defined.

(** A message for the unknown channel 7 leaves the boot state's rings as
    they were. *)
Lemma rx_unknown_device_witness :
  ipc_ch_descr
    (data_chan_rx_cb (cfg:=scenario_cfg) (T:=good_transport) 0 7 [1; 2; 3] 3
       (boot_world (cfg:=scenario_cfg))).2
  = ipc_ch_descr (boot_world (cfg:=scenario_cfg)).
Proof.
  refine (proj1 (rx_unknown_device (cfg:=scenario_cfg) (T:=good_transport)
                   (boot_world (cfg:=scenario_cfg)) 0 7 [1; 2; 3] 3 _ _)).
  - cfg_arith.
  - reflexivity.
Defined.

(** A message for channel 1 leaves the ring of channel 0 alone. *)
Lemma rx_touches_one_ring_witness :
  ipc_ch_descr
    (data_chan_rx_cb (cfg:=scenario_cfg) (T:=good_transport) 0 1 [1; 2; 3] 3
       (boot_world (cfg:=scenario_cfg))).2 !! 0%nat
  = ipc_ch_descr (boot_world (cfg:=scenario_cfg)) !! 0%nat.
Proof.
  refine (proj2 (rx_touches_one_ring (cfg:=scenario_cfg) (T:=good_transport)
                   (boot_world (cfg:=scenario_cfg)) 0 1 [1; 2; 3] 3 0) _).
  vm_compute. discriminate.
Defined.

(** Reading device 0 of the boot state returns nothing. *)
Lemma read_empty_witness :
  ipcf_read (cfg:=scenario_cfg) 0 64 64 (boot_world (cfg:=scenario_cfg))
  = ((0, []), boot_world (cfg:=scenario_cfg)).
Proof.
  refine (read_empty (cfg:=scenario_cfg) (boot_world (cfg:=scenario_cfg)) 0
            (init_chan (cfg:=scenario_cfg) (zero_chan (cfg:=scenario_cfg) 0 0))
            64 64 _ _).
  - reflexivity.
  - reflexivity.
Defined.


(** A read of device 1 leaves the ring of device 0 alone. *)
Lemma read_touches_one_ring_witness :
  let w := world_after_rx (cfg:=scenario_cfg) 1 in
  ipc_ch_descr (ipcf_read (cfg:=scenario_cfg) 1 64 64 w).2 !! 0%nat
  = ipc_ch_descr w !! 0%nat.
Proof.
  intros w.
  refine (proj2 (read_touches_one_ring (cfg:=scenario_cfg) w 1 64 64 0) _).
  vm_compute. discriminate.
Defined.

(** Two bytes of user memory for a write of five, and a transport that
    refuses the transmission. *)
Lemma write_error_paths_witness :
  (ipcf_write (cfg:=scenario_cfg) (T:=good_transport) 0 [1; 2] 5
     (boot_world (cfg:=scenario_cfg))).1 = - EFAULT /\
  (ipcf_write (cfg:=scenario_cfg) (T:=busy_transport) 0 [1; 2; 3] 3
     (boot_world (cfg:=scenario_cfg))).1 = -11.
Proof.
  pose (ch := init_chan (cfg:=scenario_cfg) (zero_chan (cfg:=scenario_cfg) 0 0)).
  split.
  - refine (proj1 (proj1 (write_error_paths (cfg:=scenario_cfg)
                            (T:=good_transport)
                            (boot_world (cfg:=scenario_cfg)) 0 ch [1; 2] 5
                            _ _) _)).
    + reflexivity.
    + reflexivity.
    + cfg_arith.
  - refine (proj1 (proj2 (write_error_paths (cfg:=scenario_cfg)
                            (T:=busy_transport)
                            (boot_world (cfg:=scenario_cfg)) 0 ch [1; 2; 3] 3
                            _ _) _ (-11) _ _)).
    + reflexivity.
    + reflexivity.
    + cfg_arith.
    + reflexivity.
    + discriminate.
Defined.

(** The message 1, 2, 3 arriving on the length-prefixed channel 1 is what
    the next read of device 1 returns behind its prefix. *)
Lemma rx_then_read_witness :
  (ipcf_read (cfg:=scenario_cfg) 1 64 0
     (data_chan_rx_cb (cfg:=scenario_cfg) (T:=good_transport) 0 1 [1; 2; 3] 3
        (boot_world (cfg:=scenario_cfg))).2).1
  = (7, [0; 0; 0; 3; 1; 2; 3]).
Proof.
  refine (rx_then_read (cfg:=scenario_cfg) (T:=good_transport) _ _ _
            (boot_world (cfg:=scenario_cfg)) 0 1 [1; 2; 3]
            (init_chan (cfg:=scenario_cfg) (zero_chan (cfg:=scenario_cfg) 0 1))
            64 0 _ _ _ _ _ _ _).
  - cfg_arith.
  - cfg_arith.
  - cfg_arith.
  - cfg_arith.
  - vm_compute. discriminate.
  - reflexivity.
  - exists (zero_chan (cfg:=scenario_cfg) 0 1), [].
    split; [shape_ok|]. split; [constructor | reflexivity].
  - reflexivity.
  - cfg_arith.
  - cfg_arith.
Defined.

(** Loading on the good kernel and unloading again: no device or node is
    left, and the region, allocated under major 240 for 2 minors, was
    named for 1048575. *)
Lemma module_exit_held_resources_witness :
  let st := boot_module (cfg:=default_cfg) in
  let st' := (ipcf_module_init (cfg:=default_cfg) (K:=good_kernel) st).2 in
  exists new1 new2,
    mod_calls st' = mod_calls st ++ new1 /\
    mod_calls (ipcf_module_exit st') = mod_calls st' ++ new2 ++ [KShmFree] /\
    track (K:=good_kernel) no_resources (new1 ++ new2 ++ [KShmFree])
      = Some (Build_resources (Unmatched 240 2 1048575) [] []).
Proof.
  intros st st'.
  refine (module_exit_held_resources (cfg:=default_cfg) (K:=good_kernel)
            st st' _ _).
  - vm_compute; reflexivity.
  - reflexivity.
Defined.

(** Loading on the good kernel: the two descriptors become channels 0 and
    1 of instance 0. *)
Lemma module_init_registry_witness :
  let st := boot_module (cfg:=default_cfg) in
  let st' := (ipcf_module_init (cfg:=default_cfg) (K:=good_kernel) st).2 in
  chan_ids <$> mod_descr st' = [(0, 0); (0, 1)].
Proof.
  intros st st'.
  refine (proj1 (module_init_registry (cfg:=default_cfg) (K:=good_kernel)
                   st st' _ _ _ _)).
  - vm_compute; reflexivity.
  - reflexivity.
  - cfg_arith.
  - repeat constructor; cfg_arith.
Defined.

(** After loading on the good kernel, channel 1 of instance 0 resolves to
    device 1. *)
Lemma module_init_lookup_witness :
  let st := boot_module (cfg:=default_cfg) in
  let st' := (ipcf_module_init (cfg:=default_cfg) (K:=good_kernel) st).2 in
  get_device_idx (mod_descr st') 0 1 = 1.
Proof.
  intros st st'.
  refine (module_init_lookup (cfg:=default_cfg) (K:=good_kernel)
            st st' 1 0 1 _ _ _ _ _ _).
  - vm_compute; reflexivity.
  - reflexivity.
  - cfg_arith.
  - cfg_arith.
  - repeat constructor; cfg_arith.
  - reflexivity.
Defined.

(** Loading with the M7_0 core stopped fails with [-EFAULT] and leaves the
    descriptors as they were. *)
Lemma module_init_core_down_witness :
  let st := boot_module (cfg:=default_cfg) in
  let r := ipcf_module_init (cfg:=default_cfg) (K:=core_down_kernel) st in
  r.1 = - EFAULT /\ r.1 < 0 /\ mod_descr r.2 = mod_descr st.
Proof.
  intros st r. split; [vm_compute; reflexivity|].
  destruct (module_init_core_down (cfg:=default_cfg) (K:=core_down_kernel) st
              ltac:(vm_compute; discriminate)) as (Hr & Hd & _).
  split; [exact Hr | exact Hd].
Defined.

(** Loading on the good kernel: the remote memory at 0x34100000 and the
    local memory 0x80000 behind it. *)
Lemma module_init_shm_layout_witness :
  let st := boot_module (cfg:=default_cfg) in
  let st' := (ipcf_module_init (cfg:=default_cfg) (K:=good_kernel) st).2 in
  mod_shm_addr st' = [(0x34100000, 0x34180000)].
Proof.
  intros st st'.
  refine (proj1 (module_init_shm_layout (cfg:=default_cfg) (K:=good_kernel)
                   st st' _ _)).
  - vm_compute; reflexivity.
  - reflexivity.
Defined.
